(** * go-spacemesh sync engine: dependency queue, fetch workers, gossip status

    A shallow embedding of [sync/validation_queue.go] and of the functions of
    the syncer ([fastValidation], [blockSyntacticValidation],
    [fetchLayerBlockIds], [fetchEpochAtxs], [fetchLayerHashes],
    [getLayerFromNeighbors], [getBlocks], [notifySubscribers],
    [setGossipBufferingStatus]) together with the properties the
    specification states about them; then the functions around these (the
    status queries, the epoch and activation fetchers, the local lookups,
    [syncSingleLayer], [getAndValidateLayer], [handleCurrentLayer],
    [gossipSyncForOneFullLayer]) with properties read off the code. *)

From stdpp Require Import base numbers option list strings gmap sets.

Set Default Proof Using "Type".

(** ** Identifiers and errors *)

(** [types.Hash32], [types.BlockID], [types.LayerID], [types.ATXID] and
    [types.TransactionID] are declared outside the sources at hand.  The code
    only compares them and uses them as map keys, so each is a number;
    [AsHash32] is the (injective) embedding of a block id into a hash. *)
Abbreviation Hash32 := N (only parsing).
Abbreviation BlockID := N (only parsing).
Abbreviation LayerID := N (only parsing).
Abbreviation ATXID := N (only parsing).
Abbreviation TransactionID := N (only parsing).
Abbreviation Peer := N (only parsing).

Definition AsHash32 (id : BlockID) : Hash32 := id.

(** Go [error] values that the code names, and [fmt.Errorf]/[errors.New]
    values built on the spot. [None : option error] is Go's [nil]. *)
Inductive error :=
| errDupTx
| errDupAtx
| errNoBlocksInLayer
| errNoActiveSet
| errZeroActiveSet
| errInvalidATXID
| ErrAlreadyExist
| ErrNotFound
| errorf (msg : string).

#[global] Instance error_eq_dec : EqDecision error.
Proof. solve_decision. Defined.

Definition isErr (e : option error) : bool :=
  match e with Some _ => true | None => false end.

(** The fields of [types.Block] the sync engine reads. *)
Record Block := mkBlock {
  ID : BlockID;
  LayerIndex : LayerID;
  BlockATXID : ATXID;
  RefBlock : option BlockID;
  ActiveSet : option (list ATXID);
  TxIDs : list TransactionID;
  ViewEdges : list BlockID;
  ForDiff : list BlockID;
  AgainstDiff : list BlockID;
  NeutralDiff : list BlockID;
}.

Definition BlockHash32 (b : Block) : Hash32 := AsHash32 (ID b).

(** ** The dependency queue ([sync/validation_queue.go]) *)

Module validation_queue.

(** Keys of [callbacks] and [depMap] are [interface{}] values: Go compares
    them by dynamic type and value, so a [types.BlockID], a [types.LayerID]
    and a [types.Hash32] with the same bits are three different keys. *)
Inductive jobId :=
| JBlock (id : BlockID)
| JLayer (l : LayerID)
| JHash (h : Hash32).

#[global] Instance jobId_eq_dec : EqDecision jobId.
Proof. solve_decision. Defined.

#[global] Instance jobId_countable : Countable jobId.
Proof.
  refine (inj_countable'
    (λ j, match j with
          | JBlock id => inl id
          | JLayer l => inr (inl l)
          | JHash h => inr (inr h)
          end)
    (λ s, match s with
          | inl id => JBlock id
          | inr (inl l) => JLayer l
          | inr (inr h) => JHash h
          end) _).
  by intros [].
Defined.

(** What the queue does, in program order: taking and releasing its mutex,
    writing one of its four maps, running a completion callback. *)
Inductive field := FCallbacks | FDepMap | FReverseDepMap | FVisited.

Inductive event :=
| ELock
| EUnlock
| EMutate (f : field)
| ECallback (j : jobId) (res : bool).

#[global] Instance field_eq_dec : EqDecision field.
Proof. solve_decision. Defined.
#[global] Instance event_eq_dec : EqDecision event.
Proof. solve_decision. Defined.

(** [ValidationInfra]: the interface the queue is built on; [M] is the state
    of the mesh behind it.  [validateVotes] stands for the package function
    [validateVotes(block, vq.ForBlockInView, vq.Hdist)]. *)
Class ValidationInfra (M : Type) := {
  DataAvailabilty : Block → M → M * option error;
  AddBlockWithTxs : Block → M → M * option error;
  GetBlock : BlockID → M → option Block;
  validateVotes : Block → M → bool;
  fastValidation : Block → M → option error;
}.

Section queue.
Context {M : Type} `{!ValidationInfra M}.

(** [func(res bool) error]: a closure over the mesh. *)
Definition callback : Type := bool → M → M * option error.

Record blockQueue := mkQueue {
  callbacks : gmap jobId callback;
  depMap : gmap jobId (gset Hash32);
  reverseDepMap : gmap Hash32 (list jobId);
  visited : gset Hash32;
  (* fetchQueue.queue: batches handed to the fetch workers *)
  queue : list (list Hash32);
  mesh : M;
  trace : list event;
}.

Definition NewValidationQueue (m : M) : blockQueue :=
  mkQueue ∅ ∅ ∅ ∅ [] m [].

Definition log (e : event) (q : blockQueue) : blockQueue :=
  mkQueue (callbacks q) (depMap q) (reverseDepMap q) (visited q) (queue q)
          (mesh q) (trace q ++ [e]).

Definition setCallbacks (c : gmap jobId callback) (q : blockQueue) : blockQueue :=
  log (EMutate FCallbacks)
    (mkQueue c (depMap q) (reverseDepMap q) (visited q) (queue q) (mesh q) (trace q)).

Definition setDepMap (d : gmap jobId (gset Hash32)) (q : blockQueue) : blockQueue :=
  log (EMutate FDepMap)
    (mkQueue (callbacks q) d (reverseDepMap q) (visited q) (queue q) (mesh q) (trace q)).

Definition setReverseDepMap (r : gmap Hash32 (list jobId)) (q : blockQueue) : blockQueue :=
  log (EMutate FReverseDepMap)
    (mkQueue (callbacks q) (depMap q) r (visited q) (queue q) (mesh q) (trace q)).

Definition setVisited (v : gset Hash32) (q : blockQueue) : blockQueue :=
  log (EMutate FVisited)
    (mkQueue (callbacks q) (depMap q) (reverseDepMap q) v (queue q) (mesh q) (trace q)).

Definition setMesh (m : M) (q : blockQueue) : blockQueue :=
  mkQueue (callbacks q) (depMap q) (reverseDepMap q) (visited q) (queue q) m (trace q).

(** Modelled from the spec: [fetchQueue.addToPending] ([fetch_queue.go] is
    not among the sources): the ids become the next batch of the block fetch
    pipeline. *)
Definition addToPending (ids : list Hash32) (q : blockQueue) : blockQueue :=
  mkQueue (callbacks q) (depMap q) (reverseDepMap q) (visited q)
          (queue q ++ [ids]) (mesh q) (trace q).

(** Running a callback: the call is recorded, its effect on the mesh kept. *)
Definition runCallback (j : jobId) (cb : callback) (res : bool) (q : blockQueue)
  : blockQueue * option error :=
  let '(m, err) := cb res (mesh q) in
  (setMesh m (log (ECallback j res) q), err).

Definition inQueue (q : blockQueue) (id : Hash32) : bool :=
  if decide (is_Some (reverseDepMap q !! id)) then true
  else if decide (id ∈ visited q) then true
  else false.

Definition finishBlockCallback (block : Block) : callback :=
  λ res m,
    if negb res then (m, None)
    else
      let '(m1, e) := DataAvailabilty block m in
      match e with
      | Some _ => (m1, Some (errorf "DataAvailabilty failed for block"))
      | None =>
        if negb (validateVotes block m1)
        then (m1, Some (errorf "validate votes failed for block"))
        else
          let '(m2, e2) := AddBlockWithTxs block m1 in
          match e2 with
          | Some e' =>
            if decide (e' = ErrAlreadyExist) then (m2, None) else (m2, Some e')
          | None => (m2, None)
          end
      end.

(** One iteration of the loop of [removefromDepMaps] over
    [vq.reverseDepMap[block]]. *)
Definition removeStep (block : Hash32) (valid : bool)
    (st : blockQueue * list Hash32) (dep : jobId) : blockQueue * list Hash32 :=
  let '(q, doneBlocks) := st in
  (* delete(vq.depMap[dep], block) *)
  let q1 := setDepMap (alter (λ s, s ∖ {[block]}) dep (depMap q)) q in
  if decide (size (default ∅ (depMap q1 !! dep)) = 0) then
    let q2 := setDepMap (delete dep (depMap q1)) q1 in
    match callbacks q2 !! dep with
    | Some cb =>
      let '(q3, err) := runCallback dep cb valid q2 in
      match err with
      | Some _ => (q3, doneBlocks)                       (* continue *)
      | None =>
        let q4 := setCallbacks (delete dep (callbacks q3)) q3 in
        match dep with
        | JBlock id => (q4, doneBlocks ++ [AsHash32 id])
        | _ => (q4, doneBlocks)
        end
      end
    | None => (q2, doneBlocks)
    end
  else (q1, doneBlocks).

Definition removefromDepMaps (block : Hash32) (valid : bool)
    (doneBlocks : list Hash32) (q : blockQueue) : blockQueue * list Hash32 :=
  let '(q1, done1) :=
    foldl (removeStep block valid) (q, doneBlocks)
          (default [] (reverseDepMap q !! block)) in
  (setReverseDepMap (delete block (reverseDepMap q1)) q1, done1).

(** The [for] loop of [updateDependencies] that empties [doneQueue]. *)
Fixpoint drain (fuel : nat) (valid : bool) (doneQueue : list Hash32)
    (q : blockQueue) : blockQueue :=
  match doneQueue with
  | [] => q
  | block :: rest =>
    match fuel with
    | O => q
    | S fuel' =>
      let '(q1, done1) := removefromDepMaps block valid rest q in
      drain fuel' valid done1 q1
    end
  end.

(** Every hash that enters [doneQueue] costs one entry of [callbacks], so
    the loop runs at most [size callbacks] rounds after the first. *)
Definition drainFuel (doneQueue : list Hash32) (q : blockQueue) : nat :=
  length doneQueue + size (callbacks q).

Definition updateDependencies (block : Hash32) (valid : bool) (q : blockQueue)
  : blockQueue :=
  let q0 := log ELock q in
  (* the three deletes use the Hash32 itself as the interface{} key *)
  let q1 := setDepMap (delete (JHash block) (depMap q0)) q0 in
  let q2 := setCallbacks (delete (JHash block) (callbacks q1)) q1 in
  let q3 := setVisited (visited q2 ∖ {[block]}) q2 in
  let '(q4, doneQueue) := removefromDepMaps block valid [] q3 in
  let q5 := drain (drainFuel doneQueue q4) valid doneQueue q4 in
  log EUnlock q5.

(** One iteration of the loop of [addDependencies] over [blks]. *)
Definition addStep (j : jobId)
    (st : blockQueue * gset Hash32 * list Hash32) (id : BlockID)
  : blockQueue * gset Hash32 * list Hash32 :=
  let '(q, dependencys, idsToPush) := st in
  let bid := AsHash32 id in
  let register q :=
    setReverseDepMap
      (<[bid := default [] (reverseDepMap q !! bid) ++ [j]]> (reverseDepMap q)) q in
  if inQueue q bid then
    (register q, dependencys ∪ {[bid]}, idsToPush)
  else
    match GetBlock id (mesh q) with
    | Some _ => (q, dependencys, idsToPush)
    | None => (register q, dependencys ∪ {[bid]}, idsToPush ++ [AsHash32 id])
    end.

Definition addDependencies (j : jobId) (blks : list BlockID)
    (finishCallback : callback) (q : blockQueue)
  : blockQueue * (bool * option error) :=
  let q0 := log ELock q in
  let q1 := setCallbacks (<[j := finishCallback]> (callbacks q0)) q0 in
  let '(q2, dependencys, idsToPush) := foldl (addStep j) (q1, ∅, []) blks in
  let q3 := log EUnlock q2 in
  let q4 := match idsToPush with [] => q3 | _ => addToPending idsToPush q3 end in
  if decide (size dependencys = 0) then
    let '(q5, err) := runCallback j finishCallback true q4 in
    (q5, (false, err))
  else
    (setDepMap (<[j := dependencys]> (depMap q4)) q4, (true, None)).

Definition handleBlockDependencies (blk : Block) (q : blockQueue) : blockQueue :=
  let '(q1, (res, err)) :=
    addDependencies (JBlock (ID blk)) (ViewEdges blk) (finishBlockCallback blk) q in
  let q2 := if isErr err then updateDependencies (BlockHash32 blk) false q1 else q1 in
  if res then q2 else updateDependencies (BlockHash32 blk) true q2.

Record fetchJob := mkFetchJob {
  ids : list Hash32;
  items : list Block;
}.

Definition itemMap (its : list Block) : gmap Hash32 Block :=
  foldl (λ mp item, <[BlockHash32 item := item]> mp) ∅ its.

Fixpoint handleIds (mp : gmap Hash32 Block) (l : list Hash32) (q : blockQueue)
  : blockQueue :=
  match l with
  | [] => q
  | id :: rest =>
    match mp !! id with
    | None => handleIds mp rest (updateDependencies id false q)   (* continue *)
    | Some block =>
      let q1 := setVisited (visited q ∪ {[id]}) q in
      match fastValidation block (mesh q1) with
      | Some _ => updateDependencies id false q1                  (* return *)
      | None => handleIds mp rest (handleBlockDependencies block q1)
      end
    end
  end.

Definition handleBlock (bjb : fetchJob) (q : blockQueue) : blockQueue :=
  handleIds (itemMap (items bjb)) (ids bjb) q.

(** Modelled from the spec: the worker loop of the block fetch pipeline
    ([fetchQueue.work], not among the sources): it takes the batches in the
    order they were queued, resolves each id against what the peers and the
    local store can supply ([supply]) and hands the job to [handleBlock]. *)
Fixpoint work (fuel : nat) (supply : Hash32 → option Block) (q : blockQueue)
  : blockQueue :=
  match fuel with
  | O => q
  | S fuel' =>
    match queue q with
    | [] => q
    | batch :: rest =>
      let q1 := mkQueue (callbacks q) (depMap q) (reverseDepMap q) (visited q)
                        rest (mesh q) (trace q) in
      work fuel' supply (handleBlock (mkFetchJob batch (omap supply batch)) q1)
    end
  end.

(** The callback runs recorded in a trace. *)
Definition callbackRuns (tr : list event) : list (jobId * bool) :=
  omap (λ e, match e with ECallback j r => Some (j, r) | _ => None end) tr.

End queue.

Arguments blockQueue M : clear implicits.
Arguments callback M : clear implicits.

End validation_queue.

(** ** The syncer *)

Module syncer.
Import validation_queue.

(** *** Gossip status and the await channel *)

(** [type status int]: any integer can be passed, four values are named. *)
Abbreviation status := Z (only parsing).
Definition pending : status := 0.
Definition inProgress : status := 1.
Definition done : status := 2.
Definition inProgress2 : status := 3.

(** The part of [Syncer] that [setGossipBufferingStatus] touches.  A channel
    is its allocation number; [closedChans] are the channels on which
    [close] has run, [nextChan] the number [make] hands out next. *)
Record Syncer := mkSyncer {
  gossipSynced : status;
  awaitCh : nat;
  closedChans : gset nat;
  nextChan : nat;
}.

(** [NewSync]: [gossipSynced: pending, awaitCh: make(chan struct{})]. *)
Definition NewSync : Syncer := mkSyncer pending 0 ∅ 1.

Definition Await (s : Syncer) : nat := awaitCh s.

(** [close] of a closed channel panics: [None]. *)
Definition notifySubscribers (prevStatus st : status) (s : Syncer) : option Syncer :=
  if decide (bool_decide (st = done) = bool_decide (prevStatus = done)) then Some s
  else if decide (st = done) then
    if decide (awaitCh s ∈ closedChans s) then None
    else Some (mkSyncer (gossipSynced s) (awaitCh s)
                        (closedChans s ∪ {[awaitCh s]}) (nextChan s))
  else
    Some (mkSyncer (gossipSynced s) (nextChan s) (closedChans s) (S (nextChan s))).

Definition setGossipBufferingStatus (st : status) (s : Syncer) : option Syncer :=
  if decide (st = gossipSynced s) then Some s
  else
    s1 ← notifySubscribers (gossipSynced s) st s;
    Some (mkSyncer st (awaitCh s1) (closedChans s1) (nextChan s1)).

(** A sequence of status changes, in order. *)
Fixpoint setAll (sts : list status) (s : Syncer) : option Syncer :=
  match sts with
  | [] => Some s
  | st :: rest => s1 ← setGossipBufferingStatus st s; setAll rest s1
  end.

(** What holds of the await channel between two status changes: the current
    channel and every closed one have been allocated, and the current
    channel is closed exactly when the status is [done]. *)
Definition awaitInv (s : Syncer) : Prop :=
  awaitCh s < nextChan s ∧
  (∀ c, c ∈ closedChans s → c < nextChan s) ∧
  (awaitCh s ∈ closedChans s ↔ gossipSynced s = done).

(** *** Block validation *)

Section validation.
(** [s.GoldenATXID] and [*types.EmptyATXID]; the collaborators
    [blockSyntacticValidation] calls: the eligibility validator, the mesh
    ([GetBlock]), the block queue behind [fetchBlock] and
    [validateBlockView], the atx and tx queues. *)
Variable GoldenATXID : ATXID.
Variable EmptyATXID : ATXID.
Variable BlockSignedAndEligible : Block → bool * option error.
Variable GetBlock : BlockID → option Block.
Variable fetchBlock : BlockID → bool.
Variable HandleAtxs : list ATXID → option error.
Variable HandleTxs : list TransactionID → option error.
Variable validateBlockView : Block → bool.

(** The loop [for _, x := range l { if _, exist := m[x]; exist {return err};
    m[x] = struct{}{} }]: is some element met a second time? *)
Fixpoint seenTwice (m : gset N) (l : list N) : bool :=
  match l with
  | [] => false
  | x :: rest => if decide (x ∈ m) then true else seenTwice (m ∪ {[x]}) rest
  end.

Definition validateUniqueTxAtx (b : Block) : option error :=
  if seenTwice ∅ (TxIDs b) then Some errDupTx
  else
    match ActiveSet b with
    | Some atxs => if seenTwice ∅ atxs then Some errDupAtx else None
    | None => None
    end.

Definition fastValidation (block : Block) : option error :=
  let '(eligible, err) := BlockSignedAndEligible block in
  if isErr err || negb eligible
  then Some (errorf "block eligibility check failed")
  else validateUniqueTxAtx block.

Definition fetchRefBlock (block : Block) : option error :=
  match RefBlock block with
  | None => Some (errorf "called fetch ref block with nil ref block")
  | Some ref =>
    match GetBlock ref with
    | Some _ => None
    | None =>
      if fetchBlock ref then None else Some (errorf "failed to fetch ref block")
    end
  end.

Definition fetchAllReferencedAtxs (blk : Block) : option error :=
  let atxs := [BlockATXID blk] in
  match ActiveSet blk with
  | Some active =>
    if decide (0 < length active) then HandleAtxs (atxs ++ active)
    else Some errZeroActiveSet
  | None =>
    match RefBlock blk with
    | None => Some errNoActiveSet
    | Some _ => HandleAtxs atxs
    end
  end.

Definition fetchBlockDataForValidation (blk : Block) : option error :=
  match RefBlock blk with
  | Some _ =>
    match fetchRefBlock blk with
    | Some err => Some err
    | None => fetchAllReferencedAtxs blk
    end
  | None => fetchAllReferencedAtxs blk
  end.

Definition dataAvailability (blk : Block) : option error :=
  let txerr := if decide (0 < length (TxIDs blk)) then HandleTxs (TxIDs blk) else None in
  match txerr with
  | Some _ => Some (errorf "failed fetching block transactions")
  | None => None
  end.

(** The error result of [blockSyntacticValidation]; the transactions and
    activations returned beside a nil error are what the queues fetched. *)
Definition blockSyntacticValidation (block : Block) : option error :=
  if decide (BlockATXID block = EmptyATXID ∨ BlockATXID block = GoldenATXID)
  then Some errInvalidATXID
  else
    match fetchBlockDataForValidation block with
    | Some err => Some err
    | None =>
      match fastValidation block with
      | Some err => Some err
      | None =>
        match dataAvailability block with
        | Some _ => Some (errorf "DataAvailabilty failed for block")
        | None =>
          if validateBlockView block then None
          else Some (errorf "block not syntacticly valid")
        end
      end
    end.

End validation.

(** *** Fetching the ids behind the layer hashes *)

(** What the [select] on one peer's request ends in. *)
Inductive peerAnswer :=
| RequestFailed (e : error)             (* the request factory returned err *)
| Interrupted                           (* <-s.GetExit() *)
| TimedOut                              (* <-timeout *)
| Answered (v : option (list N)).       (* v := <-ch, nil or the id list *)

(** The accumulators [idSet] and [ids], and the peers warned about. *)
Record fetched := mkFetched {
  idSet : gset N;
  fetchedIds : list N;
  warned : list Peer;
}.

(** [idSet] holds what [ids] lists. *)
Definition consistent (st : fetched) : Prop :=
  ∀ x, x ∈ idSet st ↔ x ∈ fetchedIds st.

Section fetch_ids.
(** [types.CalcBlocksHash32(v, nil)] resp. [types.CalcATXIdsHash32(v, nil)],
    and the peers' answers to the id request. *)
Variable CalcHash32 : list N → Hash32.
Variable ask : Peer → peerAnswer.

Definition addIds (v : list N) (st : fetched) : fetched :=
  foldl (λ st bid,
           if decide (bid ∈ idSet st) then st
           else mkFetched (idSet st ∪ {[bid]}) (fetchedIds st ++ [bid]) (warned st))
        st v.

(** The loop labelled [NextHash]. *)
Fixpoint askPeers (h : Hash32) (peers : list Peer) (st : fetched) : fetched + error :=
  match peers with
  | [] => inl st
  | peer :: rest =>
    match ask peer with
    | RequestFailed e => inr e
    | Interrupted => inr (errorf "interupt")
    | TimedOut => askPeers h rest st                       (* continue *)
    | Answered None => askPeers h rest st
    | Answered (Some v) =>
      let st1 :=
        if decide (h ≠ CalcHash32 v)
        then mkFetched (idSet st) (fetchedIds st) (warned st ++ [peer])
        else st in
      inl (addIds v st1)                                   (* break NextHash *)
    end
  end.

(** [for h, peers := range m]: [m] is given in the order the range visits
    it. *)
Fixpoint forEachHash (m : list (Hash32 * list Peer)) (st : fetched) : fetched + error :=
  match m with
  | [] => inl st
  | (h, peers) :: rest =>
    match askPeers h peers st with
    | inr e => inr e
    | inl st1 => forEachHash rest st1
    end
  end.

Definition fetchIds (m : list (Hash32 * list Peer)) : fetched + error :=
  forEachHash m (mkFetched ∅ [] []).

End fetch_ids.

(** The two copies of the loop in the source. *)
Definition fetchLayerBlockIds (CalcBlocksHash32 : list BlockID → Hash32)
    (ask : Peer → peerAnswer) (m : list (Hash32 * list Peer)) : fetched + error :=
  fetchIds CalcBlocksHash32 ask m.

Definition fetchEpochAtxs (CalcATXIdsHash32 : list ATXID → Hash32)
    (ask : Peer → peerAnswer) (m : list (Hash32 * list Peer)) : fetched + error :=
  fetchIds CalcATXIdsHash32 ask m.

(** *** Layer hashes and [getLayerFromNeighbors] *)

Record peerHashPair := mkPair {
  peer : Peer;
  hash : Hash32;
}.

Record Layer := mkLayer {
  Index : LayerID;
  Blocks : list Block;
}.

Definition NewLayer (l : LayerID) : Layer := mkLayer l [].
Definition NewExistingLayer (l : LayerID) (blocks : list Block) : Layer := mkLayer l blocks.

Section layers.
(** [emptyLayer = types.Layer{}.Hash()]. *)
Variable emptyLayer : Hash32.

(** [outputs] is what [range wrk.output] yields: a [*peerHashPair] per peer
    that answered, [None] for a nil or foreign value. *)
Definition fetchLayerHashes (outputs : list (option peerHashPair))
  : gmap Hash32 (list Peer) + error :=
  let '(m, layerHasBlocks) :=
    foldl (λ '(m, has) out,
             match out with
             | Some php =>
               if decide (hash php ≠ emptyLayer)
               then (<[hash php := default [] (m !! hash php) ++ [peer php]]> m, true)
               else (m, has)
             | None => (m, has)
             end)
          (∅ : gmap Hash32 (list Peer), false) outputs in
  if negb layerHasBlocks then inr errNoBlocksInLayer
  else if decide (size m = 0) then inr (errorf "could not get layer hashes from any peer")
  else inl m.

(** The peers that answered the hash request with [h], in the order of their
    answers; none when [h] is the hash of the empty layer. *)
Definition answeredWith (h : Hash32) (outputs : list (option peerHashPair)) : list Peer :=
  omap (λ out, php ← out;
               if decide (hash php = h ∧ hash php ≠ emptyLayer) then Some (peer php)
               else None) outputs.

(** The surroundings of one call of [getLayerFromNeighbors]: the peer set,
    the output of the layer-hash worker, whether [s.exit] is closed at the
    two checks, the peers' answers to the layer-ids request, and
    [syncLayer] (which waits for the block queue). *)
Record neighbors := mkNeighbors {
  GetPeers : list Peer;
  hashOutputs : LayerID → list (option peerHashPair);
  isClosed1 : bool;
  isClosed2 : bool;
  CalcBlocksHash32 : list BlockID → Hash32;
  idsAnswer : Peer → peerAnswer;
  syncLayerResult : LayerID → list BlockID → list Block * option error;
}.

(** The returned layer and error; the input vector fetched at the
    end goes to the database and does not reach the result. *)
Definition getLayerFromNeighbors (env : neighbors) (currentSyncLayer : LayerID)
  : option Layer * option error :=
  if decide (length (GetPeers env) = 0) then (None, Some (errorf "no peers "))
  else
    match fetchLayerHashes (hashOutputs env currentSyncLayer) with
    | inr err =>
      if decide (err = errNoBlocksInLayer) then (Some (NewLayer currentSyncLayer), None)
      else (None, Some err)
    | inl m =>
      if isClosed1 env then (None, Some (errorf "interupt"))
      else
        match fetchLayerBlockIds (CalcBlocksHash32 env) (idsAnswer env) (map_to_list m) with
        | inr err => (None, Some err)
        | inl got =>
          if isClosed2 env then (None, Some (errorf "interupt"))
          else
            let '(blocksArr, err) := syncLayerResult env currentSyncLayer (fetchedIds got) in
            if decide (length blocksArr = 0) then
              (None, Some (errorf "could not get blocks for layer"))
            else if isErr err then
              (None, Some (errorf "could not get blocks for layer"))
            else (Some (NewExistingLayer currentSyncLayer blocksArr), None)
        end
    end.

End layers.

(** *** Waiting for the block queue: [syncLayer], [getBlocks] *)

(** What the [select] after a pending [addDependencies] receives. *)
Inductive selected :=
| ExitClosed                    (* <-s.exit *)
| Received (result : bool).     (* result := <-ch *)

Section waiting.
Context {M : Type} `{!ValidationInfra M}.

(** [foo := func(res bool) error { ch <- res; return nil }]: the send shows
    as the [ECallback] event of the job. *)
Definition foo : callback M := λ _ m, (m, None).

(** [s.LayerBlocks(layerID)], read from the mesh. *)
Variable LayerBlocks : LayerID → M → list Block * option error.

Definition syncLayer (layerID : LayerID) (blockIds : list BlockID) (sel : selected)
    (q : blockQueue M) : blockQueue M * (list Block * option error) :=
  let '(q1, (res, err)) := addDependencies (JLayer layerID) blockIds foo q in
  match err with
  | Some _ => (q1, ([], Some (errorf "failed adding layer blocks to queue")))
  | None =>
    if negb res then (q1, LayerBlocks layerID (mesh q1))
    else
      match sel with
      | ExitClosed => (q1, ([], Some (errorf "received interupt")))
      | Received result =>
        if negb result then (q1, ([], Some (errorf "could not get all blocks for layer")))
        else (q1, LayerBlocks layerID (mesh q1))
      end
  end.

Definition getBlocks (jobID : LayerID) (blockIds : list BlockID) (sel : selected)
    (q : blockQueue M) : blockQueue M * option error :=
  let '(q1, (res, err)) := addDependencies (JLayer jobID) blockIds foo q in
  match err with
  | Some _ => (q1, Some (errorf "failed adding layer blocks to queue"))
  | None =>
    if negb res then (q1, None)
    else
      match sel with
      | ExitClosed => (q1, Some (errorf "received interrupt"))
      | Received result => if negb result then (q1, None) else (q1, None)
      end
  end.

(** [GetBlocks]: the job id is [types.LayerID(rand.Int31())]. *)
Definition GetBlocks (randInt31 : N) (blockIds : list BlockID) (sel : selected)
    (q : blockQueue M) : blockQueue M * option error :=
  getBlocks randInt31 blockIds sel q.

Definition combineBlockDiffs (blk : Block) : list BlockID :=
  (ForDiff blk ++ AgainstDiff blk) ++ NeutralDiff blk.

(** [validateBlockView]: the job is the block's own id; [received] is what
    [<-ch] yields once the queue has called [foo]. *)
Definition validateBlockView (blk : Block) (received : bool) (q : blockQueue M)
  : blockQueue M * bool :=
  let '(q1, (res, err)) :=
    addDependencies (JBlock (ID blk)) (combineBlockDiffs blk) foo q in
  match err with
  | Some _ => (q1, false)
  | None => if negb res then (q1, true) else (q1, received)
  end.

(** [fetchBlock]: the job id is a hash of the block id and a random
    number. *)
Definition fetchBlock (jobHash : Hash32) (id : BlockID) (received : bool)
    (q : blockQueue M) : blockQueue M * bool :=
  let '(q1, (res, err)) := addDependencies (JHash jobHash) [id] foo q in
  match err with
  | Some _ => (q1, false)
  | None => if negb res then (q1, true) else (q1, received)
  end.

(** [FetchBlock] turns the answer of [fetchBlock] into an error. *)
Definition FetchBlock (jobHash : Hash32) (id : BlockID) (received : bool)
    (q : blockQueue M) : blockQueue M * option error :=
  let '(q1, fetched) := fetchBlock jobHash id received q in
  if negb fetched then (q1, Some (errorf "stuff")) else (q1, None).

End waiting.

(** *** Reading the gossip status *)

Definition getGossipBufferingStatus (s : Syncer) : status := gossipSynced s.

Section status_queries.
(** [s.AlwaysListen], [s.LatestLayer()] and [s.GetCurrentLayer()]. *)
Variable AlwaysListen : bool.
Variable LatestLayer : LayerID.
Variable GetCurrentLayer : LayerID.

(** [s.LatestLayer()+1 >= layer]: a [types.LayerID] is a [uint64], the sum
    wraps. *)
Definition weaklySynced (layer : LayerID) : bool :=
  bool_decide (layer ≤ (LatestLayer + 1) mod 2 ^ 64)%N.

Definition ListenToGossip (s : Syncer) : bool :=
  AlwaysListen || bool_decide (getGossipBufferingStatus s ≠ pending).

Definition IsSynced (s : Syncer) : bool :=
  weaklySynced GetCurrentLayer && bool_decide (getGossipBufferingStatus s = done).

Definition IsHareSynced (s : Syncer) : bool :=
  bool_decide (getGossipBufferingStatus s = inProgress2) || IsSynced s.

End status_queries.

(** *** The activations of an epoch *)

Section epochs.
Variable emptyLayer : Hash32.

(** The copy of [fetchLayerHashes] for epochs: the same loop over what the
    peers answer, another message in the last error. *)
Definition fetchEpochAtxHashes (outputs : list (option peerHashPair))
  : gmap Hash32 (list Peer) + error :=
  let '(m, layerHasBlocks) :=
    foldl (λ '(m, has) out,
             match out with
             | Some php =>
               if decide (hash php ≠ emptyLayer)
               then (<[hash php := default [] (m !! hash php) ++ [peer php]]> m, true)
               else (m, has)
             | None => (m, has)
             end)
          (∅ : gmap Hash32 (list Peer), false) outputs in
  if negb layerHasBlocks then inr errNoBlocksInLayer
  else if decide (size m = 0) then inr (errorf "could not get epoch hashes from any peer")
  else inl m.

(** [syncEpochActivations]: [outputs] is what the hash worker yields for the
    epoch, [ask] the peers' answers to the atx-ids request, [HandleAtxs] the
    error of [s.atxQueue.HandleAtxs]. *)
Definition syncEpochActivations (outputs : list (option peerHashPair))
    (CalcATXIdsHash32 : list ATXID → Hash32) (ask : Peer → peerAnswer)
    (HandleAtxs : list ATXID → option error) : option error :=
  match fetchEpochAtxHashes outputs with
  | inr err => Some err
  | inl hashes =>
    match fetchEpochAtxs CalcATXIdsHash32 ask (map_to_list hashes) with
    | inr err => Some err
    | inl atxIds => HandleAtxs (fetchedIds atxIds)
    end
  end.

End epochs.

(** *** Fetching single activations *)

(** The fields of [types.ActivationTx] that [FetchAtxReferences] reads. *)
Record ActivationTx := mkAtx {
  AtxID : ATXID;
  PositioningATX : ATXID;
  PrevATXID : ATXID;
}.

Section atx_fetch.
(** [St] is the state of the atx queue and the database behind it;
    [HandleAtxs] is [s.atxQueue.HandleAtxs]. *)
Context {St : Type}.
Variable GoldenATXID : ATXID.
Variable EmptyATXID : ATXID.
Variable HandleAtxs : list ATXID → St → St * (list ActivationTx * option error).

Definition fetchAtx (ID : ATXID) (st : St)
  : St * (option ActivationTx * option error) :=
  let '(st1, (atxs, err)) := HandleAtxs [ID] st in
  match err with
  | Some e => (st1, (None, Some e))
  | None =>
    match atxs with
    | [] => (st1, (None, Some (errorf "ATX not fetched")))
    | atx :: _ => (st1, (Some atx, None))
    end
  end.

Definition FetchAtx (ID : ATXID) (st : St) : St * option error :=
  let '(st1, (_, e)) := fetchAtx ID st in (st1, e).

Definition FetchAtxReferences (atx : ActivationTx) (st : St) : St * option error :=
  let '(st1, err1) :=
    if decide (PositioningATX atx ≠ GoldenATXID)
    then let '(st1, (_, err)) := fetchAtx (PositioningATX atx) st in (st1, err)
    else (st, None) in
  match err1 with
  | Some err => (st1, Some err)
  | None =>
    if decide (PrevATXID atx ≠ EmptyATXID)
    then let '(st2, (_, err)) := fetchAtx (PrevATXID atx) st1 in (st2, err)
    else (st1, None)
  end.

End atx_fetch.

(** *** What is at hand locally *)

Section check_local.
(** [Tx] and [Atx] are the items of the pools; [TxHash32] is
    the [Hash32] method of a transaction.  The conversions [types.TransactionID(t)],
    [types.ATXID(t)] and their [Hash32()] do not change the bits. *)
Context {Tx Atx : Type}.
Variable GetBlock : BlockID → option Block.
Variable ToHash20 : Hash32 → BlockID.
Variable txpoolGet : TransactionID → option Tx.
Variable GetTransactions : list TransactionID → list Tx * list TransactionID.
Variable TxHash32 : Tx → Hash32.
Variable GetFullAtx : ATXID → option Atx.
Variable GetATXs : list ATXID → list (ATXID * Atx) * list ATXID.

(** The three results are [unprocessedItems], [dbItems] and [missingItems];
    a nil map is the empty map, a nil slice the empty list. *)
Definition blockCheckLocal (blockIds : list Hash32)
  : gmap Hash32 Block * gmap Hash32 Block * list Hash32 :=
  let dbItems :=
    foldl (λ dbItems id,
             match GetBlock (ToHash20 id) with
             | None => dbItems                              (* continue *)
             | Some res => <[id := res]> dbItems
             end) ∅ blockIds in
  (∅, dbItems, []).

(** The first loop of [txCheckLocal] and [atxCheckLocal]: what the pool
    has, and the ids it lacks in the order they came. *)
Definition lookInPool {A : Type} (get : N → option A) (ids : list Hash32)
  : gmap Hash32 A * list N :=
  foldl (λ '(unprocessedItems, missingInPool) t,
           match get t with
           | Some x => (<[t := x]> unprocessedItems, missingInPool)
           | None => (unprocessedItems, missingInPool ++ [t])
           end) (∅, []) ids.

(** [GetTransactions] answers with two maps; they are given in the order
    the two [range] loops visit them. *)
Definition txCheckLocal (txIds : list Hash32)
  : gmap Hash32 Tx * gmap Hash32 Tx * list Hash32 :=
  let '(unprocessedItems, missingInPool) := lookInPool txpoolGet txIds in
  let '(dbTxs, missing) := GetTransactions missingInPool in
  let dbItems := foldl (λ dbItems k, <[TxHash32 k := k]> dbItems) ∅ dbTxs in
  (unprocessedItems, dbItems, missing).

Definition atxCheckLocal (atxIds : list Hash32)
  : gmap Hash32 Atx * gmap Hash32 Atx * list Hash32 :=
  let '(unprocessedItems, missingInPool) := lookInPool GetFullAtx atxIds in
  let '(dbAtxs, missing) := GetATXs missingInPool in
  let dbItems := foldl (λ dbItems '(i, k), <[i := k]> dbItems) ∅ dbAtxs in
  (unprocessedItems, dbItems, missing).

End check_local.

End syncer.

(** ** The sync controller: one layer at a time *)

Module controller.
Import syncer.

(** What the controller is built on, with [W] the joint state of the mesh,
    its database, the ticker, the peers and the exit channel.  Each field is
    the method of that name, but:
    - [waitTick] is the [select] of [waitLayer]: the layer the ticker sends,
      or [None] when the exit channel wins;
    - [isClosed] is whether the exit channel is closed;
    - [validationDeltaPassed] is
      [time.Now().Sub(s.LayerToTime(s.LatestLayer())) > s.ValidationDelta];
    - [IsGenesis l] is [l.GetEpoch().IsGenesis()];
    - [peersFor l] is what the peers answer when asked about layer [l], and
      [fetchedFrom l] the state once their blocks have gone through the
      block queue;
    - [syncAtxs] is the method of that name, which returns nothing. *)
Class Surroundings (W : Type) := {
  GetCurrentLayer : W → LayerID;
  waitTick : W → W * option LayerID;
  validationDeltaPassed : W → bool;
  IsGenesis : LayerID → bool;
  isClosed : W → bool;
  LatestLayer : W → LayerID;
  GetLayer : LayerID → W → Layer + error;
  ValidateLayer : Layer → option (list BlockID) → W → W;
  SetZeroBlockLayer : LayerID → W → W * option error;
  GetLayerInputVector : LayerID → W → list BlockID + error;
  emptyLayer : Hash32;
  peersFor : LayerID → W → neighbors;
  fetchedFrom : LayerID → W → W;
  syncAtxs : LayerID → W → W;
}.

Definition validatingLayerNone : LayerID := 0%N.

Section control.
Context {W : Type} `{!Surroundings W}.

(** The syncer as the controller sees it: the gossip status with its await
    channel, the layer under validation, the number of subscriptions to the
    ticker that have not been cancelled, and the surroundings. *)
Record node := mkNode {
  gossip : Syncer;
  validatingLayer : LayerID;
  subscriptions : nat;
  world : W;
}.

Definition setWorld (w : W) (n : node) : node :=
  mkNode (gossip n) (validatingLayer n) (subscriptions n) w.

Definition setValidating (l : LayerID) (n : node) : node :=
  mkNode (gossip n) l (subscriptions n) (world n).

Definition getValidatingLayer (n : node) : LayerID := validatingLayer n.

(** [n'] has the gossip status, the await channel and the subscriptions of
    [n]. *)
Definition sameStatus (n n' : node) : Prop :=
  gossip n' = gossip n ∧ subscriptions n' = subscriptions n.

(** [s.setGossipBufferingStatus]; [None] is the panic of closing a closed
    channel. *)
Definition setStatus (st : status) (n : node) : option node :=
  s ← setGossipBufferingStatus st (gossip n);
  Some (mkNode s (validatingLayer n) (subscriptions n) (world n)).

(** [var l types.LayerID] stays zero when the exit channel wins. *)
Definition waitLayer (n : node) : node * (LayerID * bool) :=
  let '(w, t) := waitTick (world n) in
  match t with
  | Some l => (setWorld w n, (l, false))
  | None => (setWorld w n, (0%N, true))
  end.

(** The deferred function runs on both ways out. *)
Definition getAndValidateLayer (id : LayerID) (n : node) : node * option error :=
  let n1 := setValidating id n in
  match GetLayer id (world n1) with
  | inr err => (setValidating validatingLayerNone n1, Some err)
  | inl lyr =>
    let inputVector :=
      match GetLayerInputVector id (world n1) with
      | inl v => Some v
      | inr _ => None
      end in
    let n2 := setWorld (ValidateLayer lyr inputVector (world n1)) n1 in
    (setValidating validatingLayerNone n2, None)
  end.

(** Outcomes of code that can panic. *)
Inductive outcome (A : Type) :=
| Panic
| Returns (a : A).
Arguments Panic {A}.
Arguments Returns {A} a.

(** [syncSingleLayer]; [lyr.Blocks()] on a nil layer is a panic. *)
Definition syncSingleLayer (currentSyncLayer : LayerID) (n : node)
  : outcome (node * option error) :=
  if isClosed (world n) then Returns (n, Some (errorf "shutdown"))
  else
    let '(lyr, err) :=
      getLayerFromNeighbors emptyLayer (peersFor currentSyncLayer (world n))
        currentSyncLayer in
    let n1 := setWorld (fetchedFrom currentSyncLayer (world n)) n in
    match err with
    | Some e => Returns (n1, Some e)
    | None =>
      match lyr with
      | None => Panic
      | Some lyr =>
        if decide (length (Blocks lyr) = 0) then
          let '(w, e) := SetZeroBlockLayer currentSyncLayer (world n1) in
          match e with
          | Some e => Returns (setWorld w n1, Some e)
          | None => Returns (setWorld (syncAtxs currentSyncLayer w) n1, None)
          end
        else Returns (setWorld (syncAtxs currentSyncLayer (world n1)) n1, None)
      end
    end.

(** [handleCurrentLayer]; [s.Panic] is a panic. *)
Definition handleCurrentLayer (n : node) : outcome (node * option error) :=
  let curr := GetCurrentLayer (world n) in
  let first :=
    if bool_decide (LatestLayer (world n) = curr) && validationDeltaPassed (world n) then
      let '(n1, err) := getAndValidateLayer (LatestLayer (world n)) n in
      match err with
      | None => Returns (n1, None)
      | Some e =>
        if decide (e ≠ ErrNotFound) then Panic
        else
          let '(w, e2) := SetZeroBlockLayer curr (world n1) in
          Returns (setWorld w n1, e2)
      end
    else Returns (n, None) in
  match first with
  | Panic => Panic
  | Returns (n1, Some e) => Returns (n1, Some e)
  | Returns (n1, None) =>
    if bool_decide ((LatestLayer (world n1) + 1) mod 2 ^ 64 = curr)%N && IsGenesis curr then
      match GetLayer (LatestLayer (world n1)) (world n1) with
      | inr e =>
        if decide (e = ErrNotFound) then
          let '(w, e2) := SetZeroBlockLayer (LatestLayer (world n1)) (world n1) in
          Returns (setWorld w n1, e2)
        else Returns (n1, None)
      | inl _ => Returns (n1, None)
      end
    else Returns (n1, None)
  end.

(** The step [getAndValidateLayer], and a zero-block layer when the layer is
    not found, that [gossipSyncForOneFullLayer] takes twice. *)
Definition validateOrZero (l : LayerID) (n : node) : node * option error :=
  let '(n1, err) := getAndValidateLayer l n in
  match err with
  | None => (n1, None)
  | Some e =>
    if decide (e ≠ ErrNotFound) then (n1, Some e)
    else
      let '(w, e2) := SetZeroBlockLayer l (world n1) in
      (setWorld w n1, e2)
  end.

Definition subscribe (n : node) : node :=
  mkNode (gossip n) (validatingLayer n) (S (subscriptions n)) (world n).

Definition unsubscribe (n : node) : node :=
  mkNode (gossip n) (validatingLayer n) (pred (subscriptions n)) (world n).

Definition gossipSyncForOneFullLayer (currentSyncLayer : LayerID) (n : node)
  : outcome (node * option error) :=
  let n0 := subscribe n in
  let '(n1, (flayer, exit)) := waitLayer n0 in
  if exit then Returns (n1, Some (errorf "cloed while buffering first layer"))
  else
    match syncSingleLayer currentSyncLayer n1 with
    | Panic => Panic
    | Returns (n2, Some err) => Returns (n2, Some err)
    | Returns (n2, None) =>
      let '(n3, err) := validateOrZero currentSyncLayer n2 in
      match err with
      | Some err => Returns (n3, Some err)
      | None =>
        match setStatus inProgress2 n3 with
        | None => Panic
        | Some n4 =>
          let '(n5, (_, done)) := waitLayer n4 in
          if done then Returns (n5, Some (errorf "cloed while buffering second layer "))
          else
            match syncSingleLayer flayer n5 with
            | Panic => Panic
            | Returns (n6, Some err) => Returns (n6, Some err)
            | Returns (n6, None) =>
              let '(n7, err) := validateOrZero flayer n6 in
              match err with
              | Some err => Returns (n7, Some err)
              | None =>
                match setStatus syncer.done (unsubscribe n7) with
                | None => Panic
                | Some n8 => Returns (n8, None)
                end
              end
            end
        end
      end
    end.

End control.

Arguments node W : clear implicits.
Arguments Panic {A}.
Arguments Returns {A} a.

End controller.

(** ** Concrete surroundings for running the queue *)

Module scenarios.
Import validation_queue.

(** Modelled from the spec: the mesh behind [ValidationInfra] ([mesh] is not
    among the sources).  It is the persistent block store: an admitted block
    is found by [GetBlock] from then on, admitting it again answers
    [ErrAlreadyExist].  [unavailable] are the blocks whose transactions
    cannot be fetched, [ineligible] those the eligibility validator turns
    down; fast validation is the syncer's. *)
Record simpleMesh := mkMesh {
  stored : gmap BlockID Block;
  unavailable : gset BlockID;
  ineligible : gset BlockID;
}.

#[global] Instance simpleInfra : ValidationInfra simpleMesh := {|
  DataAvailabilty b m :=
    (m, if decide (ID b ∈ unavailable m) then Some (errorf "failed fetching block transactions")
        else None);
  AddBlockWithTxs b m :=
    match stored m !! ID b with
    | Some _ => (m, Some ErrAlreadyExist)
    | None => (mkMesh (<[ID b := b]> (stored m)) (unavailable m) (ineligible m), None)
    end;
  GetBlock id m := stored m !! id;
  validateVotes b m := true;
  fastValidation b m :=
    syncer.fastValidation (λ b, (bool_decide (ID b ∉ ineligible m), None)) b;
|}.

Definition emptyMesh : simpleMesh := mkMesh ∅ ∅ ∅.

(** A block of layer [l] with view edges [view] and nothing else in it. *)
Definition blk (id : BlockID) (l : LayerID) (view : list BlockID) : Block :=
  mkBlock id l 77 None (Some [77%N]) [] view [] [] [].

Definition q0 : blockQueue simpleMesh := NewValidationQueue emptyMesh.

(** Layer 7 has the blocks 1 and 2; the peers deliver block 2 only. *)
Definition lostBlock : blockQueue simpleMesh :=
  handleBlock (mkFetchJob [1; 2]%N [blk 2 7 []])
    (fst (addDependencies (JLayer 7) [1; 2]%N syncer.foo q0)).

(** Five blocks in five layers: P (5) sees X and Q, Q (4) sees Y, Y (3) sees
    X, X (2) sees W, W (1) sees nothing.  Layer 5 is synced from an empty
    queue and an empty store, every block is valid and the peers have all of
    them. *)
Definition W : Block := blk 1 1 [].
Definition X : Block := blk 2 2 [1%N].
Definition Y : Block := blk 3 3 [2%N].
Definition Q : Block := blk 4 4 [3%N].
Definition P : Block := blk 5 5 [2; 4]%N.

Definition peersHave (h : Hash32) : option Block :=
  snd <$> list_find (λ b, BlockHash32 b = h) [W; X; Y; Q; P].

Definition layer5 (fuel : nat) : blockQueue simpleMesh :=
  work fuel peersHave (fst (addDependencies (JLayer 5) [5%N] syncer.foo q0)).

(** A block that names itself among its view edges. *)
Definition selfish : Block := blk 1 1 [1%N].

Definition selfishHandled : blockQueue simpleMesh :=
  handleBlock (mkFetchJob [1%N] [selfish]) q0.

(** A block that names itself among the blocks it votes for. *)
Definition selfDiff : Block := mkBlock 1 1 77 None (Some [77%N]) [] [] [1%N] [] [].

(** Layer 2 with its block X, then layer 3 with its block Y, one after the
    other; W, which X sees, is not in the store when layer 2 is synced. *)
Definition layer2then3 (fuel : nat) : blockQueue simpleMesh :=
  let q2 := work fuel peersHave (fst (addDependencies (JLayer 2) [2%N] syncer.foo q0)) in
  work fuel peersHave (fst (addDependencies (JLayer 3) [3%N] syncer.foo q2)).

(** A toy content hash for answers to the layer-ids request, and peers 1 and
    2 answering it: the ids peer 1 returns do not hash to 10, those of peer 2
    do. *)
Definition sumHash (ids : list N) : Hash32 := foldr N.add 0%N ids.

Definition twoPeers (p : Peer) : syncer.peerAnswer :=
  if decide (p = 1%N) then syncer.Answered (Some [1; 2]%N)
  else syncer.Answered (Some [4; 6]%N).

(** A block whose activation is the golden one and whose active set is
    there but empty, with an eligible miner; the golden id is 99, the empty
    id 0. *)
Definition goldenATX : ATXID := 99%N.
Definition emptyATX : ATXID := 0%N.
Definition badAtx : Block := mkBlock 1 1 goldenATX None (Some []) [] [] [] [] [].
Definition dupTx : Block := mkBlock 1 1 77 None (Some [77%N]) [5; 5]%N [] [] [] [].
Definition eligible (b : Block) : bool * option error := (true, None).

(** Three peers that all answer the hash request for layer 4 with the
    empty-layer hash 0. *)
Definition emptyNeighbors : syncer.neighbors :=
  syncer.mkNeighbors [1; 2; 3]%N
    (λ _, [Some (syncer.mkPair 1 0); Some (syncer.mkPair 2 0); Some (syncer.mkPair 3 0)])
    false false sumHash twoPeers (λ _ _, ([], None)).

(** A queue over a store that already has blocks 1 and 2. *)
Definition stocked : blockQueue simpleMesh :=
  NewValidationQueue (mkMesh (<[1%N := W]> (<[2%N := X]> ∅)) ∅ ∅).

(** Modelled from the spec: surroundings for running the controller (mesh,
    ticker and peers are not among the sources).  The ticker sends the
    layers of [ticks] one after the other, and then the exit channel wins;
    the database holds the layers that were set as zero-block layers and no
    other; every peer answers every hash request with the empty-layer hash
    0.  The node is at layer 0 and past genesis. *)
Record simpleWorld := mkWorld {
  ticks : list LayerID;
  zeroLayers : list LayerID;
}.

#[global] Instance simpleSurroundings : controller.Surroundings simpleWorld := {|
  controller.GetCurrentLayer w := 0%N;
  controller.waitTick w :=
    match ticks w with
    | [] => (w, None)
    | l :: rest => (mkWorld rest (zeroLayers w), Some l)
    end;
  controller.validationDeltaPassed w := true;
  controller.IsGenesis l := false;
  controller.isClosed w := false;
  controller.LatestLayer w := 0%N;
  controller.GetLayer l w :=
    if decide (l ∈ zeroLayers w) then inl (syncer.NewLayer l) else inr ErrNotFound;
  controller.ValidateLayer lyr v w := w;
  controller.SetZeroBlockLayer l w := (mkWorld (ticks w) (zeroLayers w ++ [l]), None);
  controller.GetLayerInputVector l w := inr ErrNotFound;
  controller.emptyLayer := 0%N;
  controller.peersFor l w := emptyNeighbors;
  controller.fetchedFrom l w := w;
  controller.syncAtxs l w := w;
|}.

(** A node that has just been built, with two ticks to come. *)
Definition freshNode : controller.node simpleWorld :=
  controller.mkNode syncer.NewSync controller.validatingLayerNone 0
    (mkWorld [8; 9]%N []).

End scenarios.

(** ** The lock discipline of a trace *)

Module discipline.
Import validation_queue.

(** Is the mutex held after [e], when [held] says whether it was before? *)
Definition after (e : event) (held : bool) : bool :=
  match e with
  | ELock => true
  | EUnlock => false
  | _ => held
  end.

(** [ok e held] must hold of every event, [held] being the state of the
    mutex when the event happens. *)
Fixpoint respects (ok : event → bool → bool) (held : bool) (tr : list event) : bool :=
  match tr with
  | [] => true
  | e :: rest => ok e held && respects ok (after e held) rest
  end.

Definition heldAfter (held : bool) (tr : list event) : bool :=
  foldl (λ h e, after e h) held tr.

(** The discipline the specification words: writes under the mutex,
    callbacks outside it. *)
Definition writesUnderLock (e : event) (held : bool) : bool :=
  match e with
  | EMutate _ => held
  | _ => true
  end.

Definition callbacksOutside (e : event) (held : bool) : bool :=
  match e with
  | ECallback _ _ => negb held
  | _ => true
  end.

Definition specified (e : event) (held : bool) : bool :=
  writesUnderLock e held && callbacksOutside e held.

(** What [updateDependencies] does: it takes the free mutex, and writes and
    runs callbacks while it holds it. *)
Definition relaxing (e : event) (held : bool) : bool :=
  match e with
  | ELock => negb held
  | EUnlock => held
  | EMutate _ => held
  | ECallback _ _ => held
  end.

(** What [addDependencies] does with [callbacks] and [reverseDepMap] and
    with its callback. *)
Definition adding (e : event) (held : bool) : bool :=
  match e with
  | ELock => negb held
  | EUnlock => held
  | EMutate FCallbacks | EMutate FReverseDepMap => held
  | EMutate _ => true
  | ECallback _ _ => negb held
  end.

(** Events a critical section consists of. *)
Definition inner (e : event) : Prop :=
  match e with ELock | EUnlock => False | _ => True end.

Section continuation.
Context {M : Type} `{!ValidationInfra M}.

(** [q'] continues the trace of [q] by events that satisfy [P]. *)
Definition extends (P : event → Prop) (q q' : blockQueue M) : Prop :=
  ∃ evs, trace q' = trace q ++ evs ∧ Forall P evs.

(** What the loop of [addDependencies] may change: it only appends to the
    lists of [reverseDepMap]. *)
Definition grows (q q' : blockQueue M) : Prop :=
  mesh q' = mesh q ∧ visited q' = visited q ∧ callbacks q' = callbacks q ∧
  depMap q' = depMap q ∧ queue q' = queue q ∧
  extends (λ e, e = EMutate FReverseDepMap) q q' ∧
  (∀ h jj, jj ∈ default [] (reverseDepMap q !! h) →
           jj ∈ default [] (reverseDepMap q' !! h)) ∧
  (∀ h, is_Some (reverseDepMap q !! h) → is_Some (reverseDepMap q' !! h)).

(** No job is stored as waiting for nothing. *)
Definition nonEmptyDeps (q : blockQueue M) : Prop :=
  ∀ j s, depMap q !! j = Some s → s ≠ ∅.

(** [q'] holds nothing that [q] does not hold: no waiting job, no
    dependency of a job, no callback, no batch to fetch. *)
Definition shrinks (q q' : blockQueue M) : Prop :=
  reverseDepMap q' ⊆ reverseDepMap q ∧
  callbacks q' ⊆ callbacks q ∧
  queue q' = queue q ∧
  ∀ j s', depMap q' !! j = Some s' → ∃ s, depMap q !! j = Some s ∧ s' ⊆ s.

(** The callbacks run between [q] and [q'] were registered in [q] and were
    all told [valid]. *)
Definition told (valid : bool) (q q' : blockQueue M) : Prop :=
  callbacks q' ⊆ callbacks q ∧
  ∃ runs, callbackRuns (trace q') = callbackRuns (trace q) ++ runs ∧
          Forall (λ jr, jr.2 = valid ∧ is_Some (callbacks q !! jr.1)) runs.

(** The loop of [updateDependencies] with its rounds counted: [None] when
    [rounds] are used up before [doneQueue] is empty. *)
Fixpoint drainRun (rounds : nat) (valid : bool) (doneQueue : list Hash32)
    (q : blockQueue M) : option (blockQueue M) :=
  match doneQueue with
  | [] => Some q
  | block :: rest =>
    match rounds with
    | O => None
    | S rounds' =>
      let '(q1, done1) := removefromDepMaps block valid rest q in
      drainRun rounds' valid done1 q1
    end
  end.

End continuation.

End discipline.

(** * Properties *)

(** ** Gossip status and the await channel *)

Section await.
Import syncer.

Lemma NewSync_inv : awaitInv NewSync.
Proof.
  unfold awaitInv. simpl. split; [lia|]. split; [set_solver|].
  split; [set_solver | discriminate].
Qed.

(** One status change: it never closes a closed channel, keeps the
    invariant, and touches the channel by the kind of the change. *)
Lemma setGossip_step (st : Z) (s : Syncer) :
  awaitInv s →
  ∃ s', setGossipBufferingStatus st s = Some s' ∧ awaitInv s' ∧
        gossipSynced s' = st ∧ nextChan s ≤ nextChan s' ∧
        if decide (gossipSynced s ≠ done ∧ st = done) then
          awaitCh s' = awaitCh s ∧ (awaitCh s ∉ closedChans s) ∧
          closedChans s' = closedChans s ∪ {[awaitCh s]}
        else if decide (gossipSynced s = done ∧ st ≠ done) then
          awaitCh s' = nextChan s ∧ (awaitCh s' ∉ closedChans s') ∧
          closedChans s' = closedChans s
        else awaitCh s' = awaitCh s ∧ closedChans s' = closedChans s.
Proof.
  intros (Hlt & Hcl & Hiff).
  unfold setGossipBufferingStatus, notifySubscribers.
  destruct (decide (st = gossipSynced s)) as [->|Hne].
  - exists s. split; [done|]. split; [done|]. split; [done|]. split; [lia|].
    repeat case_decide; naive_solver.
  - destruct (decide (st = done)) as [->|Hnd].
    + assert (gossipSynced s ≠ done) as Hs by congruence.
      rewrite (bool_decide_eq_true_2 (done = done)) by done.
      rewrite (bool_decide_eq_false_2 (gossipSynced s = done)) by done.
      rewrite decide_False by done.
      rewrite decide_False by (rewrite Hiff; done).
      exists (mkSyncer done (awaitCh s) (closedChans s ∪ {[awaitCh s]}) (nextChan s)).
      split; [done|]. simpl.
      split.
      { unfold awaitInv; simpl. split; [done|]. split; [|set_solver].
        intros c [Hc| ->%elem_of_singleton]%elem_of_union; [by apply Hcl | done]. }
      split; [done|]. split; [lia|].
      rewrite decide_True by done. rewrite Hiff. done.
    + rewrite (bool_decide_eq_false_2 (st = done)) by done.
      destruct (decide (gossipSynced s = done)) as [Hd|Hd].
      * rewrite (bool_decide_eq_true_2 _ Hd).
        rewrite decide_False by done.
        exists (mkSyncer st (nextChan s) (closedChans s) (S (nextChan s))).
        split; [done|]. simpl.
        assert (nextChan s ∉ closedChans s) as Hfresh.
        { intros Hin. apply Hcl in Hin. lia. }
        split.
        { unfold awaitInv; simpl. split; [lia|].
          split; [intros c Hc; apply Hcl in Hc; lia|].
          split; [done | intros; done]. }
        split; [done|]. split; [lia|].
        rewrite decide_False by naive_solver.
        rewrite decide_True by done. done.
      * rewrite (bool_decide_eq_false_2 _ Hd).
        rewrite decide_True by done.
        exists (mkSyncer st (awaitCh s) (closedChans s) (nextChan s)).
        split; [done|]. simpl.
        split.
        { unfold awaitInv; simpl. split; [done|]. split; [done|].
          rewrite Hiff. naive_solver. }
        split; [done|]. split; [lia|].
        rewrite decide_False by naive_solver.
        rewrite decide_False by naive_solver. done.
Qed.

Lemma setAll_inv (sts : list Z) (s : Syncer) :
  awaitInv s → ∃ s', setAll sts s = Some s' ∧ awaitInv s'.
Proof.
  revert s. induction sts as [|st sts IH]; intros s Hs; simpl.
  - by exists s.
  - destruct (setGossip_step st s Hs) as (s1 & -> & Hs1 & _). simpl. by apply IH.
Qed.

(** A channel handed out earlier is closed later exactly if it is closed
    now, or it is the current one and the status becomes [done]. *)
Lemma subscriber (later : list Z) (s : Syncer) (c : nat) :
  awaitInv s → c < nextChan s →
  ∃ s2, setAll later s = Some s2 ∧
    (c ∈ closedChans s2 ↔ c ∈ closedChans s ∨ (c = awaitCh s ∧ done ∈ later)).
Proof.
  revert s. induction later as [|st later IH]; intros s Hs Hc; simpl.
  - exists s. split; [done|]. rewrite elem_of_nil. naive_solver.
  - destruct (setGossip_step st s Hs) as (s1 & -> & Hs1 & Hst & Hnext & Hcase). simpl.
    destruct (IH s1 Hs1 ltac:(lia)) as (s2 & -> & Hiff).
    exists s2. split; [done|]. rewrite Hiff, elem_of_cons. clear Hiff IH.
    destruct Hs as (Hlt & Hcl & Hd).
    repeat case_decide.
    + destruct Hcase as (Ha & Hn & Hc'). rewrite Hc', Ha. set_solver.
    + destruct Hcase as (Ha & Hn & Hc'). rewrite Hc', Ha.
      split.
      * intros [?|[-> _]]; [by left | lia].
      * intros [?|[-> _]]; [by left|]. left. apply Hd. naive_solver.
    + destruct Hcase as (Ha & Hc'). rewrite Hc', Ha.
      split; [naive_solver|].
      intros [?|[-> [<-|?]]]; [by left | | by right].
      left. apply Hd. destruct (decide (gossipSynced s = done)); [done|]. naive_solver.
Qed.

(** C8.  After any sequence of status changes from [NewSync] (none of which
    panics): the channel [Await] returns is closed exactly when the status
    is [done]; a further change closes that channel exactly when it goes
    from a status other than [done] to [done], installs a new, open channel
    exactly when it goes from [done] to another status, and leaves channel
    and closed channels alone otherwise; and whoever took the channel is
    released by later changes exactly if the status was [done] already or
    becomes [done] among them. *)
Theorem C8_await_semantics (sts : list Z) :
  ∃ s, setAll sts NewSync = Some s ∧
    (Await s ∈ closedChans s ↔ gossipSynced s = done) ∧
    (∀ st, ∃ s', setGossipBufferingStatus st s = Some s' ∧ gossipSynced s' = st ∧
       if decide (gossipSynced s ≠ done ∧ st = done) then
         Await s' = Await s ∧ (Await s ∉ closedChans s) ∧
         closedChans s' = closedChans s ∪ {[Await s]}
       else if decide (gossipSynced s = done ∧ st ≠ done) then
         Await s' ≠ Await s ∧ (Await s' ∉ closedChans s') ∧
         closedChans s' = closedChans s
       else Await s' = Await s ∧ closedChans s' = closedChans s) ∧
    (∀ later, ∃ s2, setAll later s = Some s2 ∧
       (Await s ∈ closedChans s2 ↔ gossipSynced s = done ∨ done ∈ later)).
Proof.
  destruct (setAll_inv sts NewSync NewSync_inv) as (s & Hrun & Hinv).
  exists s. split; [done|]. split; [apply Hinv|]. split.
  - intros st.
    destruct (setGossip_step st s Hinv) as (s' & Hstep & _ & Hst & _ & Hcase).
    exists s'. split; [done|]. split; [done|]. unfold Await.
    repeat case_decide; try done.
    destruct Hcase as (Ha & Hn & Hc). split; [|done].
    rewrite Ha. destruct Hinv as (Hlt & _). lia.
  - intros later.
    destruct (subscriber later s (awaitCh s) Hinv (proj1 Hinv)) as (s2 & Hrun2 & Hiff).
    exists s2. split; [done|]. unfold Await. rewrite Hiff.
    destruct Hinv as (_ & _ & Hd). rewrite Hd. naive_solver.
Qed.

End await.

(** ** Block validation *)

Section validation_facts.
Import syncer scenarios.

Lemma seenTwice_spec (m : gset N) (l : list N) :
  seenTwice m l = true ↔ ¬ NoDup l ∨ ∃ x, x ∈ l ∧ x ∈ m.
Proof.
  revert m. induction l as [|x l IH]; intros m; simpl.
  - split; [done|].
    intros [Hn|(x & Hx & _)]; [destruct Hn; constructor | by apply elem_of_nil in Hx].
  - destruct (decide (x ∈ m)) as [Hin|Hin].
    + split; [|done]. intros _. right. exists x. split; [left | done].
    + rewrite IH. rewrite NoDup_cons. split.
      * intros [Hn|(y & Hy & [Hym| ->%elem_of_singleton]%elem_of_union)].
        -- left. tauto.
        -- right. exists y. split; [by right | done].
        -- left. tauto.
      * intros [Hn|(y & [->|Hy]%elem_of_cons & Hym)].
        -- destruct (decide (x ∈ l)) as [Hxl|Hxl].
           ++ right. exists x. split; [done | set_solver].
           ++ left. tauto.
        -- done.
        -- right. exists y. split; [done | set_solver].
Qed.

Lemma seenTwice_empty (l : list N) : seenTwice ∅ l = true ↔ ¬ NoDup l.
Proof.
  rewrite seenTwice_spec. split; [|by left].
  intros [?|(x & _ & Hx)]; [done | set_solver].
Qed.

Lemma validateUniqueTxAtx_dup (b : Block) :
  ¬ NoDup (TxIDs b) ∨ (∃ atxs, ActiveSet b = Some atxs ∧ ¬ NoDup atxs) →
  isErr (validateUniqueTxAtx b) = true.
Proof.
  unfold validateUniqueTxAtx. intros [Htx|(atxs & -> & Hatx)].
  - apply seenTwice_empty in Htx. by rewrite Htx.
  - destruct (seenTwice ∅ (TxIDs b)); [done|].
    apply seenTwice_empty in Hatx. by rewrite Hatx.
Qed.

(** A block without repetitions passes [validateUniqueTxAtx]: the check
    turns down the repetitions and nothing else. *)
Lemma validateUniqueTxAtx_nodup (b : Block) :
  NoDup (TxIDs b) → (∀ atxs, ActiveSet b = Some atxs → NoDup atxs) →
  validateUniqueTxAtx b = None.
Proof.
  intros Htx Hatx. unfold validateUniqueTxAtx.
  destruct (seenTwice ∅ (TxIDs b)) eqn:H1; [by apply seenTwice_empty in H1|].
  destruct (ActiveSet b) as [atxs|]; [|done].
  destruct (seenTwice ∅ atxs) eqn:H2; [|done].
  apply seenTwice_empty in H2. destruct H2. by apply Hatx.
Qed.

Lemma fastValidation_dup elig (b : Block) :
  ¬ NoDup (TxIDs b) ∨ (∃ atxs, ActiveSet b = Some atxs ∧ ¬ NoDup atxs) →
  isErr (fastValidation elig b) = true.
Proof.
  intros Hdup. unfold fastValidation. destruct (elig b) as [e err].
  destruct (isErr err || negb e); [done|]. by apply validateUniqueTxAtx_dup.
Qed.

(** C4, as the code has it.  Fast validation returns an error for every
    block with a repeated transaction id or a repeated ATX id in its active
    set; and [blockSyntacticValidation], which runs fast validation, returns
    an error for every block with one of these two, an active set that is
    present and empty, or an ATX id equal to the golden or the empty id. *)
Theorem C4_invalid_blocks_are_rejected golden empty elig getb fetchb hatx htx vview
    (b : Block) :
  (¬ NoDup (TxIDs b) ∨ (∃ atxs, ActiveSet b = Some atxs ∧ ¬ NoDup atxs) →
   isErr (fastValidation elig b) = true) ∧
  (¬ NoDup (TxIDs b) ∨ (∃ atxs, ActiveSet b = Some atxs ∧ ¬ NoDup atxs) ∨
   ActiveSet b = Some [] ∨ BlockATXID b = golden ∨ BlockATXID b = empty →
   isErr (blockSyntacticValidation golden empty elig getb fetchb hatx htx vview b) = true).
Proof.
  split; [apply fastValidation_dup|].
  intros Hbad. unfold blockSyntacticValidation.
  case_decide as Hatx; [done|].
  destruct (fetchBlockDataForValidation getb fetchb hatx b) as [e|] eqn:Hfetch; [done|].
  destruct (fastValidation elig b) as [e|] eqn:Hfast; [done|].
  exfalso.
  destruct Hbad as [Htx|[Hdup|[Hzero|Hbad]]].
  - pose proof (fastValidation_dup elig b (or_introl Htx)) as H. by rewrite Hfast in H.
  - pose proof (fastValidation_dup elig b (or_intror Hdup)) as H. by rewrite Hfast in H.
  - unfold fetchBlockDataForValidation, fetchAllReferencedAtxs in Hfetch.
    rewrite Hzero in Hfetch. simpl in Hfetch.
    destruct (RefBlock b); [destruct (fetchRefBlock getb fetchb b)|]; done.
  - tauto.
Qed.

Lemma C4_invalid_blocks_are_rejected_witness :
  ¬ NoDup (TxIDs dupTx) ∧
  isErr (fastValidation eligible dupTx) = true ∧
  BlockATXID badAtx = goldenATX ∧
  isErr (blockSyntacticValidation goldenATX emptyATX eligible (λ _, None) (λ _, true)
           (λ _, None) (λ _, None) (λ _, true) badAtx) = true.
Proof.
  assert (¬ NoDup (TxIDs dupTx)) as Hdup.
  { intros Hn. apply NoDup_cons in Hn as [Hn _]. apply Hn. constructor. }
  split; [exact Hdup|]. split.
  - apply (C4_invalid_blocks_are_rejected goldenATX emptyATX eligible (λ _, None)
             (λ _, true) (λ _, None) (λ _, None) (λ _, true) dupTx).
    left. exact Hdup.
  - split; [reflexivity|].
    apply (C4_invalid_blocks_are_rejected goldenATX emptyATX eligible (λ _, None)
             (λ _, true) (λ _, None) (λ _, None) (λ _, true) badAtx).
    right. right. right. left. reflexivity.
Defined.

(** Fast validation lets a block pass whose active set is empty and whose
    ATX id is the golden one; [blockSyntacticValidation] is what turns it
    down. *)
Lemma C4_fast_validation_accepts_bad_atx :
  ActiveSet badAtx = Some [] ∧ BlockATXID badAtx = goldenATX ∧
  fastValidation eligible badAtx = None ∧
  blockSyntacticValidation goldenATX emptyATX eligible (λ _, None) (λ _, true)
    (λ _, None) (λ _, None) (λ _, true) badAtx = Some errInvalidATXID.
Proof. repeat split. Qed.

End validation_facts.

(** ** Fetching ids by hash *)

Section fetch_facts.
Import syncer scenarios.

Lemma addIds_spec (v : list N) (st : fetched) :
  consistent st →
  consistent (addIds v st) ∧ warned (addIds v st) = warned st ∧
  ∀ x, x ∈ fetchedIds (addIds v st) ↔ x ∈ fetchedIds st ∨ x ∈ v.
Proof.
  revert st. induction v as [|bid v IH]; intros st Hst.
  - simpl. split; [done|]. split; [done|]. intros x. rewrite elem_of_nil. tauto.
  - unfold addIds. simpl. fold (addIds v).
    case_decide as Hin.
    + destruct (IH st Hst) as (Hc & Hw & Hx). split; [done|]. split; [done|].
      intros x. rewrite Hx, elem_of_cons. split; [tauto|].
      intros [?|[->|?]]; [tauto| |tauto]. left. by apply Hst.
    + destruct (IH (mkFetched (idSet st ∪ {[bid]}) (fetchedIds st ++ [bid]) (warned st)))
        as (Hc & Hw & Hx).
      { intros x. simpl.
        rewrite elem_of_union, elem_of_singleton, elem_of_app, list_elem_of_singleton.
        by rewrite (Hst x). }
      split; [done|]. split; [done|].
      intros x. rewrite Hx. simpl.
      rewrite elem_of_app, list_elem_of_singleton, elem_of_cons. tauto.
Qed.

(** C3, what the code does instead.  When the first peer asked for a hash
    answers with ids that do not hash to it, [fetchLayerBlockIds] and
    [fetchEpochAtxs] warn about the peer, take every id of the answer into
    the result, and ask no further peer for that hash: the result is the
    same whoever comes after and whatever they would answer. *)
Theorem C3_mismatching_ids_are_kept (calc : list N → N) (ask : N → peerAnswer)
    (h : N) (p : N) (rest : list N) (v : list N) :
  ask p = Answered (Some v) → calc v ≠ h →
  ∃ got,
    fetchLayerBlockIds calc ask [(h, p :: rest)] = inl got ∧
    fetchEpochAtxs calc ask [(h, p :: rest)] = inl got ∧
    warned got = [p] ∧
    (∀ bid, bid ∈ fetchedIds got ↔ bid ∈ v) ∧
    (∀ ask' rest', ask' p = ask p →
       fetchLayerBlockIds calc ask' [(h, p :: rest')] = inl got).
Proof.
  intros Hask Hne.
  exists (addIds v (mkFetched ∅ [] [p])).
  assert (∀ ask' rest', ask' p = ask p →
    fetchIds calc ask' [(h, p :: rest')] = inl (addIds v (mkFetched ∅ [] [p]))) as Hall.
  { intros ask' rest' Heq. unfold fetchIds. simpl. rewrite Heq, Hask.
    rewrite decide_True by congruence. done. }
  split; [by apply Hall|]. split; [by apply Hall|].
  destruct (addIds_spec v (mkFetched ∅ [] [p])) as (_ & Hw & Hx).
  { intros x. simpl. set_solver. }
  split; [done|]. split.
  - intros bid. rewrite Hx. simpl. rewrite elem_of_nil. tauto.
  - intros ask' rest' Heq. by apply Hall.
Qed.

Lemma C3_mismatching_ids_are_kept_witness :
  twoPeers 1%N = Answered (Some [1; 2]%N) ∧ sumHash [1; 2]%N ≠ 10%N ∧
  sumHash [4; 6]%N = 10%N ∧
  ∃ got,
    fetchLayerBlockIds sumHash twoPeers [(10%N, [1; 2]%N)] = inl got ∧
    fetchEpochAtxs sumHash twoPeers [(10%N, [1; 2]%N)] = inl got ∧
    warned got = [1%N] ∧
    (∀ bid, bid ∈ fetchedIds got ↔ bid ∈ [1; 2]%N) ∧
    (∀ ask' rest', ask' 1%N = twoPeers 1%N →
       fetchLayerBlockIds sumHash ask' [(10%N, 1%N :: rest')] = inl got).
Proof.
  split; [reflexivity|]. split; [discriminate|]. split; [reflexivity|].
  apply (C3_mismatching_ids_are_kept sumHash twoPeers 10%N 1%N [2%N] [1; 2]%N);
    [reflexivity | discriminate].
Defined.

(** The same run, spelled out: asked for the ids that hash to 10, peer 1
    answers [1; 2], peer 2 would answer [4; 6]; the result is [1; 2]. *)
Example fetchLayerBlockIds_keeps_wrong_ids :
  fetchLayerBlockIds sumHash twoPeers [(10%N, [1; 2]%N)]
    = inl (mkFetched {[1%N; 2%N]} [1; 2]%N [1%N]).
Proof. vm_compute. reflexivity. Qed.

(** With matching ids nothing is warned about. *)
Lemma askPeers_matching (calc : list N → N) (ask : N → peerAnswer)
    (h : N) (p : N) (rest : list N) (v : list N) (st : fetched) :
  ask p = Answered (Some v) → calc v = h →
  askPeers calc ask h (p :: rest) st = inl (addIds v st).
Proof. intros Hask Heq. simpl. rewrite Hask. by rewrite decide_False by congruence. Qed.

End fetch_facts.

(** ** The empty layer *)

Section layer_facts.
Import syncer scenarios.

Lemma fetchLayerHashes_empty (emptyLayer : N) (outputs : list (option peerHashPair)) :
  (∀ php, Some php ∈ outputs → hash php = emptyLayer) →
  fetchLayerHashes emptyLayer outputs = inr errNoBlocksInLayer.
Proof.
  intros Hall. unfold fetchLayerHashes.
  assert (∀ m, foldl (λ '(m, has) out,
             match out with
             | Some php =>
               if decide (hash php ≠ emptyLayer)
               then (<[hash php := default [] (m !! hash php) ++ [peer php]]> m, true)
               else (m, has)
             | None => (m, has)
             end) (m, false) outputs = (m, false)) as ->; [|done].
  induction outputs as [|out outputs IH]; intros m; [done|]. simpl.
  destruct out as [php|].
  - rewrite decide_False.
    + apply IH. intros ? ?. apply Hall. by right.
    + intros Hne. apply Hne, Hall. by left.
  - apply IH. intros ? ?. apply Hall. by right.
Qed.

(** One answer with another hash and [fetchLayerHashes] reports blocks. *)
Lemma fetchLayerHashes_nonempty (emptyLayer : N) (php : peerHashPair) :
  hash php ≠ emptyLayer →
  fetchLayerHashes emptyLayer [Some php] = inl {[hash php := [peer php]]}.
Proof.
  intros Hne. unfold fetchLayerHashes. simpl.
  rewrite decide_True by done. simpl.
  rewrite decide_False; [done|].
  rewrite lookup_empty. simpl. rewrite insert_empty, map_size_singleton. lia.
Qed.

(** C7.  With a peer to ask, if every answer to the layer-hash request is
    the empty-layer hash, [getLayerFromNeighbors] returns the layer with no
    blocks and a nil error. *)
Theorem C7_empty_layer (emptyLayer : N) (env : neighbors) (L : N) :
  GetPeers env ≠ [] →
  (∀ php, Some php ∈ hashOutputs env L → hash php = emptyLayer) →
  getLayerFromNeighbors emptyLayer env L = (Some (NewLayer L), None) ∧
  Index (NewLayer L) = L ∧ Blocks (NewLayer L) = [].
Proof.
  intros Hpeers Hall. split; [|done].
  unfold getLayerFromNeighbors.
  rewrite decide_False by (destruct (GetPeers env); [done | simpl; lia]).
  rewrite fetchLayerHashes_empty by done.
  by rewrite decide_True.
Qed.

Lemma C7_empty_layer_witness :
  GetPeers emptyNeighbors ≠ [] ∧
  (∀ php, Some php ∈ hashOutputs emptyNeighbors 4%N → hash php = 0%N) ∧
  getLayerFromNeighbors 0%N emptyNeighbors 4%N = (Some (NewLayer 4%N), None) ∧
  Index (NewLayer 4%N) = 4%N ∧ Blocks (NewLayer 4%N) = [].
Proof.
  assert (∀ php, Some php ∈ hashOutputs emptyNeighbors 4%N → hash php = 0%N) as Hall.
  { intros php Hin. simpl in Hin.
    repeat (apply elem_of_cons in Hin as [Hin|Hin]; [by inversion Hin|]).
    by apply elem_of_nil in Hin. }
  split; [discriminate|]. split; [exact Hall|].
  apply (C7_empty_layer 0%N emptyNeighbors 4%N); [discriminate | exact Hall].
Defined.

(** Without peers the call fails before any hash is asked for. *)
Example getLayerFromNeighbors_no_peers (emptyLayer : N) (env : neighbors) (L : N) :
  GetPeers env = [] →
  getLayerFromNeighbors emptyLayer env L = (None, Some (errorf "no peers ")).
Proof. intros Hp. unfold getLayerFromNeighbors. by rewrite Hp. Qed.

End layer_facts.

(** ** Waiting for the queue *)

Section waiting_facts.
Import validation_queue syncer.
Context {M : Type} `{!ValidationInfra M}.

Lemma addDependencies_foo_no_error (j : jobId) (ids : list N) (q : blockQueue M) :
  snd (snd (addDependencies j ids foo q)) = None.
Proof.
  unfold addDependencies.
  destruct (foldl _ _ ids) as [[q2 deps] push].
  case_decide; [|done].
  unfold runCallback, foo. done.
Qed.

(** C10.  [GetBlocks] returns a nil error whenever a result arrives from
    the queue, be it [true] or [false]; it returns an error only when the
    job is pending and the exit channel is closed.  (Its callback never
    fails, so adding the job never does.) *)
Theorem C10_GetBlocks_error (rnd : N) (ids : list N) (sel : selected) (q : blockQueue M) :
  snd (GetBlocks rnd ids sel q) =
    match sel with
    | Received _ => None
    | ExitClosed =>
      if fst (snd (addDependencies (JLayer rnd) ids foo q))
      then Some (errorf "received interrupt") else None
    end.
Proof.
  unfold GetBlocks, getBlocks.
  pose proof (addDependencies_foo_no_error (JLayer rnd) ids q) as Herr.
  destruct (addDependencies (JLayer rnd) ids foo q) as [q1 [res err]].
  simpl in *. subst err.
  destruct res, sel as [|[]]; done.
Qed.

(** [syncLayer] differs: a [false] from the queue is an error there. *)
Lemma syncLayer_false_is_error LayerBlocks (l : N) (ids : list N) (q : blockQueue M) :
  fst (snd (addDependencies (JLayer l) ids foo q)) = true →
  snd (snd (syncLayer LayerBlocks l ids (Received false) q))
    = Some (errorf "could not get all blocks for layer").
Proof.
  unfold syncLayer.
  pose proof (addDependencies_foo_no_error (JLayer l) ids q) as Herr.
  destruct (addDependencies (JLayer l) ids foo q) as [q1 [res err]].
  simpl in *. subst err. by intros ->.
Qed.

End waiting_facts.

(** ** The dependency queue *)

Section queue_facts.
Import validation_queue discipline.
Context {M : Type} `{!ValidationInfra M}.
Implicit Types q : blockQueue M.

#[local] Arguments removeStep : simpl never.
#[local] Arguments removefromDepMaps : simpl never.
#[local] Arguments addStep : simpl never.
#[local] Arguments updateDependencies : simpl never.

(** *** Traces only grow *)

Lemma extends_refl P q : extends P q q.
Proof. exists []. by rewrite app_nil_r. Qed.

Lemma extends_trans P q1 q2 q3 : extends P q1 q2 → extends P q2 q3 → extends P q1 q3.
Proof.
  intros (e1 & H1 & F1) (e2 & H2 & F2). exists (e1 ++ e2).
  rewrite H2, H1, app_assoc. split; [done | by apply Forall_app].
Qed.

Lemma extends_setReverseDepMap (P : event → Prop) r q :
  P (EMutate FReverseDepMap) → extends P q (setReverseDepMap r q).
Proof. intros HP. exists [EMutate FReverseDepMap]. split; [done | by constructor]. Qed.

Lemma removeStep_extends block valid q done dep :
  extends inner q (removeStep block valid (q, done) dep).1.
Proof.
  unfold removeStep, runCallback, setDepMap, setCallbacks, setMesh, log. simpl.
  repeat case_match; simplify_eq; simpl;
    eexists; (split; [rewrite <- ?app_assoc; reflexivity | repeat constructor]).
Qed.

Lemma foldl_removeStep_extends block valid deps q done :
  extends inner q (foldl (removeStep block valid) (q, done) deps).1.
Proof.
  revert q done. induction deps as [|dep deps IH]; intros q done; simpl.
  - apply extends_refl.
  - destruct (removeStep block valid (q, done) dep) as [q1 d1] eqn:Hstep.
    eapply extends_trans; [|apply IH].
    pose proof (removeStep_extends block valid q done dep) as Hx. by rewrite Hstep in Hx.
Qed.

Lemma removefromDepMaps_extends block valid done q :
  extends inner q (removefromDepMaps block valid done q).1.
Proof.
  unfold removefromDepMaps.
  pose proof (foldl_removeStep_extends block valid
                (default [] (reverseDepMap q !! block)) q done) as Hx.
  destruct (foldl _ _ _) as [q1 d1]. simpl in *.
  eapply extends_trans; [exact Hx|]. by apply extends_setReverseDepMap.
Qed.

Lemma drain_extends fuel valid done q : extends inner q (drain fuel valid done q).
Proof.
  revert done q. induction fuel as [|fuel IH]; intros done q;
    destruct done as [|b rest]; simpl; try apply extends_refl.
  pose proof (removefromDepMaps_extends b valid rest q) as Hx.
  destruct (removefromDepMaps b valid rest q) as [q1 d1]. simpl in *.
  eapply extends_trans; [exact Hx | apply IH].
Qed.

Lemma respects_inner ok held evs rest :
  Forall inner evs → Forall (λ e, ok e held = true) evs →
  respects ok held (evs ++ rest) = respects ok held rest ∧
  heldAfter held (evs ++ rest) = heldAfter held rest.
Proof.
  induction evs as [|e evs IH]; intros Hin Hok; [done|].
  apply Forall_cons in Hin as [He Hin]. apply Forall_cons in Hok as [Hoke Hok].
  simpl. rewrite Hoke. simpl.
  assert (after e held = held) as -> by (by destruct e).
  by apply IH.
Qed.

Lemma callbackRuns_app (a b : list event) :
  callbackRuns (a ++ b) = callbackRuns a ++ callbackRuns b.
Proof. apply omap_app. Qed.

Lemma callbackRuns_silent (P : event → Prop) (evs : list event) :
  (∀ e, P e → ∀ jj r, e ≠ ECallback jj r) → Forall P evs → callbackRuns evs = [].
Proof.
  intros HP. induction 1 as [|e evs He _ IH]; [done|].
  simpl. rewrite IH. destruct e; try done. by destruct (HP _ He j res).
Qed.

(** *** The loop of [updateDependencies] ends *)

Lemma removeStep_measure block valid q (done : list N) dep :
  length (removeStep block valid (q, done) dep).2
    + size (callbacks (removeStep block valid (q, done) dep).1)
  ≤ length done + size (callbacks q).
Proof.
  unfold removeStep, runCallback. simpl.
  case_decide; [|simpl; lia].
  destruct (callbacks q !! dep) as [cb|] eqn:Hcb; [|simpl; lia].
  destruct (cb valid (mesh q)) as [m [e|]]; simpl; [lia|].
  assert (size (delete dep (callbacks q)) = pred (size (callbacks q))) as Hsz
    by (apply map_size_delete_Some; eauto).
  assert (size (callbacks q) ≠ 0) as Hnz by (eapply map_size_ne_0_lookup_2; eauto).
  destruct dep; simpl; rewrite ?length_app; simpl; lia.
Qed.

Lemma foldl_removeStep_measure block valid (deps : list jobId) q (done : list N) :
  length (foldl (removeStep block valid) (q, done) deps).2
    + size (callbacks (foldl (removeStep block valid) (q, done) deps).1)
  ≤ length done + size (callbacks q).
Proof.
  revert q done. induction deps as [|dep deps IH]; intros q done; simpl; [lia|].
  pose proof (removeStep_measure block valid q done dep) as Hs.
  destruct (removeStep block valid (q, done) dep) as [q1 d1]. simpl in Hs.
  specialize (IH q1 d1). lia.
Qed.

Lemma removefromDepMaps_measure block valid (done : list N) q :
  drainFuel (removefromDepMaps block valid done q).2 (removefromDepMaps block valid done q).1
  ≤ drainFuel done q.
Proof.
  unfold removefromDepMaps, drainFuel.
  pose proof (foldl_removeStep_measure block valid
                (default [] (reverseDepMap q !! block)) q done) as Hs.
  destruct (foldl _ _ _) as [q1 d1]. simpl in *. lia.
Qed.

(** The fuel [updateDependencies] gives the loop is never used up: any
    amount from [drainFuel] on gives the same queue. *)
Lemma drain_fuel f1 f2 valid (done : list N) q :
  drainFuel done q ≤ f1 → drainFuel done q ≤ f2 →
  drain f1 valid done q = drain f2 valid done q.
Proof.
  revert f2 done q. induction f1 as [|f1 IH]; intros f2 done q H1 H2;
    destruct done as [|b rest].
  - by destruct f2.
  - unfold drainFuel in H1. simpl in H1. lia.
  - by destruct f2.
  - destruct f2 as [|f2]; [unfold drainFuel in H2; simpl in H2; lia|].
    simpl.
    pose proof (removefromDepMaps_measure b valid rest q) as Hs.
    destruct (removefromDepMaps b valid rest q) as [q1 d1]. simpl in Hs.
    unfold drainFuel in *. simpl in *. apply IH; lia.
Qed.

(** *** Only the hash passed to [updateDependencies] leaves [visited] *)

Lemma removeStep_visited block valid q (done : list N) dep :
  visited (removeStep block valid (q, done) dep).1 = visited q.
Proof.
  unfold removeStep, runCallback. simpl.
  repeat case_match; simplify_eq; done.
Qed.

Lemma removefromDepMaps_visited block valid (done : list N) q :
  visited (removefromDepMaps block valid done q).1 = visited q.
Proof.
  unfold removefromDepMaps.
  assert (∀ deps q done, visited (foldl (removeStep block valid) (q, done) deps).1
                          = visited q) as Hfold.
  { induction deps as [|dep deps IH]; intros q' done'; simpl; [done|].
    pose proof (removeStep_visited block valid q' done' dep) as Hs.
    destruct (removeStep block valid (q', done') dep) as [q1 d1]. simpl in Hs.
    by rewrite IH. }
  specialize (Hfold (default [] (reverseDepMap q !! block)) q done).
  by destruct (foldl _ _ _) as [q1 d1].
Qed.

Lemma drain_visited fuel valid (done : list N) q :
  visited (drain fuel valid done q) = visited q.
Proof.
  revert done q. induction fuel as [|fuel IH]; intros done q;
    destruct done as [|b rest]; simpl; try reflexivity.
  pose proof (removefromDepMaps_visited b valid rest q) as Hs.
  destruct (removefromDepMaps b valid rest q) as [q1 d1]. simpl in Hs.
  by rewrite IH.
Qed.

(** The jobs completed while the loop runs keep their place in [visited]. *)
Lemma updateDependencies_visited block valid q :
  visited (updateDependencies block valid q) = visited q ∖ {[block]}.
Proof.
  unfold updateDependencies.
  set (q3 := setVisited _ _).
  pose proof (removefromDepMaps_visited block valid [] q3) as Hs.
  destruct (removefromDepMaps block valid [] q3) as [q4 dq]. simpl in *.
  by rewrite drain_visited, Hs.
Qed.

(** A step calls the job's callback at most once, with the outcome at
    hand, and only if the job waits for nothing but the resolved hash. *)
Lemma removeStep_calls_when_resolved block valid q (dq : list N) dep :
  callbackRuns (trace (removeStep block valid (q, dq) dep).1) = callbackRuns (trace q) ∨
  (callbackRuns (trace (removeStep block valid (q, dq) dep).1)
     = callbackRuns (trace q) ++ [(dep, valid)] ∧
   default ∅ (depMap q !! dep) ⊆ {[block]}).
Proof.
  unfold removeStep, runCallback. simpl. rewrite lookup_alter_eq.
  destruct (decide _) as [Hsz|Hsz].
  2:{ left; simpl. rewrite callbackRuns_app. simpl. by rewrite app_nil_r. }
  assert (default ∅ (depMap q !! dep) ⊆ {[block]}) as Hsub.
  { destruct (depMap q !! dep) as [waits|]; simpl in Hsz |- *.
    - apply size_empty_inv in Hsz. intros x Hx.
      destruct (decide (x = block)) as [->|Hne]; [by apply elem_of_singleton|].
      exfalso. apply (not_elem_of_empty (C:=gset N) x). apply Hsz.
      apply elem_of_difference. split; [exact Hx | by rewrite elem_of_singleton].
    - apply empty_subseteq. }
  destruct (callbacks q !! dep) as [cb|];
    [|left; simpl; rewrite !callbackRuns_app; simpl; by rewrite !app_nil_r].
  right. split; [|done].
  destruct (cb valid (mesh q)) as [m [e|]]; [|destruct dep]; simpl;
    rewrite !callbackRuns_app; simpl; by rewrite ?app_nil_r.
Qed.

(** A job with another dependency outstanding is not told the outcome:
    the step is the same for [true] and for [false]. *)
Lemma removeStep_outcome_dropped block valid q (done : list N) dep (s : gset N) :
  depMap q !! dep = Some s → s ∖ {[block]} ≠ ∅ →
  removeStep block valid (q, done) dep
    = (setDepMap (<[dep := s ∖ {[block]}]> (depMap q)) q, done).
Proof.
  intros Hs Hne. unfold removeStep. simpl.
  rewrite lookup_alter_eq, Hs. simpl.
  rewrite decide_False.
  - f_equal. f_equal. apply map_eq. intros k.
    destruct (decide (k = dep)) as [->|Hk].
    + by rewrite lookup_alter_eq, lookup_insert_eq, Hs.
    + by rewrite lookup_alter_ne, lookup_insert_ne.
  - intros Hz. apply size_empty_inv in Hz. by apply leibniz_equiv in Hz.
Qed.

End queue_facts.

(** *** What the loop of [addDependencies] changes *)

Section adding_facts.
Import validation_queue discipline.
Context {M : Type} `{!ValidationInfra M}.
Implicit Types q : blockQueue M.

#[local] Arguments addStep : simpl never.

Lemma grows_refl q : grows q q.
Proof. repeat split; auto using extends_refl. Qed.

Lemma grows_trans q1 q2 q3 : grows q1 q2 → grows q2 q3 → grows q1 q3.
Proof.
  intros (A1 & A2 & A3 & A4 & A5 & A6 & A7 & A8) (B1 & B2 & B3 & B4 & B5 & B6 & B7 & B8).
  repeat split; try congruence; eauto using extends_trans.
Qed.

Lemma inQueue_grows q q' h : grows q q' → inQueue q h = true → inQueue q' h = true.
Proof.
  intros (_ & Hv & _ & _ & _ & _ & _ & Hs). unfold inQueue. rewrite Hv.
  repeat case_decide; naive_solver.
Qed.

Lemma register_grows q (bid : N) (j : jobId) :
  grows q (setReverseDepMap
             (<[bid := default [] (reverseDepMap q !! bid) ++ [j]]> (reverseDepMap q)) q).
Proof.
  repeat split; try done.
  - by apply extends_setReverseDepMap.
  - intros h jj Hjj. simpl. destruct (decide (bid = h)) as [->|Hne].
    + rewrite lookup_insert_eq. simpl. apply elem_of_app. by left.
    + by rewrite lookup_insert_ne.
  - intros h Hh. simpl. destruct (decide (bid = h)) as [->|Hne].
    + rewrite lookup_insert_eq. eauto.
    + by rewrite lookup_insert_ne.
Qed.

Lemma register_elem q (bid : N) (j : jobId) :
  j ∈ default [] (reverseDepMap (setReverseDepMap
        (<[bid := default [] (reverseDepMap q !! bid) ++ [j]]> (reverseDepMap q)) q) !! bid).
Proof. simpl. rewrite lookup_insert_eq. simpl. apply elem_of_app. right. by left. Qed.

(** One child: it is registered if it is in the queue or not in the store,
    and passed over if it is in the store and not in the queue. *)
Lemma addStep_spec j q (deps : gset N) (push : list N) (id : N) :
  ∃ q' deps' push', addStep j (q, deps, push) id = (q', deps', push') ∧
    grows q q' ∧ deps ⊆ deps' ∧
    (inQueue q (AsHash32 id) = true ∨ GetBlock id (mesh q) = None →
     AsHash32 id ∈ deps' ∧ j ∈ default [] (reverseDepMap q' !! AsHash32 id)) ∧
    (inQueue q (AsHash32 id) = false → is_Some (GetBlock id (mesh q)) →
     q' = q ∧ deps' = deps ∧ push' = push).
Proof.
  unfold addStep.
  destruct (inQueue q (AsHash32 id)) eqn:Hin.
  - do 3 eexists. split; [done|]. split; [apply register_grows|].
    split; [set_solver|]. split; [|done].
    intros _. split; [set_solver | apply register_elem].
  - destruct (GetBlock id (mesh q)) as [b|] eqn:Hget.
    + do 3 eexists. split; [done|]. split; [apply grows_refl|]. split; [done|].
      split; [|done]. intros [?|?]; done.
    + do 3 eexists. split; [done|]. split; [apply register_grows|].
      split; [set_solver|]. split; [|by intros _ [? ?]].
      intros _. split; [set_solver | apply register_elem].
Qed.

Lemma foldl_addStep_spec j (blks : list N) q (deps : gset N) (push : list N) :
  ∃ q' deps' push', foldl (addStep j) (q, deps, push) blks = (q', deps', push') ∧
    grows q q' ∧ deps ⊆ deps' ∧
    (∀ id, id ∈ blks →
       inQueue q (AsHash32 id) = true ∨ GetBlock id (mesh q) = None →
       AsHash32 id ∈ deps' ∧ j ∈ default [] (reverseDepMap q' !! AsHash32 id)) ∧
    (Forall (λ id, inQueue q (AsHash32 id) = false ∧ is_Some (GetBlock id (mesh q))) blks →
     q' = q ∧ deps' = deps ∧ push' = push).
Proof.
  revert q deps push. induction blks as [|id blks IH]; intros q deps push.
  - do 3 eexists. split; [done|]. split; [apply grows_refl|]. split; [done|].
    split; [|done]. intros id Hid. by apply elem_of_nil in Hid.
  - simpl.
    destruct (addStep_spec j q deps push id)
      as (q1 & d1 & p1 & -> & Hg1 & Hd1 & Hreg1 & Hsame1).
    destruct (IH q1 d1 p1) as (q2 & d2 & p2 & -> & Hg2 & Hd2 & Hreg2 & Hsame2).
    do 3 eexists. split; [done|]. split; [by eapply grows_trans|].
    split; [set_solver|]. split.
    + intros id' [->|Hin]%elem_of_cons Hc.
      * destruct (Hreg1 Hc) as [Ha Hb]. split; [set_solver|].
        by apply Hg2.
      * apply Hreg2; [done|]. destruct Hc as [Hc|Hc].
        -- left. by eapply inQueue_grows.
        -- right. destruct Hg1 as (-> & _). done.
    + intros [[Hq Hs] Hall]%Forall_cons.
      destruct (Hsame1 Hq Hs) as (-> & -> & ->). by apply Hsame2.
Qed.

(** No child needs registration: the callback runs at once. *)
Lemma addDependencies_satisfied j (blks : list N) (cb : callback M) q :
  Forall (λ id, inQueue q (AsHash32 id) = false ∧ is_Some (GetBlock id (mesh q))) blks →
  ∃ q', addDependencies j blks cb q = (q', (false, (cb true (mesh q)).2)) ∧
        mesh q' = (cb true (mesh q)).1 ∧
        callbacks q' = <[j := cb]> (callbacks q) ∧
        depMap q' = depMap q ∧ reverseDepMap q' = reverseDepMap q ∧
        visited q' = visited q ∧ queue q' = queue q ∧
        trace q' = trace q ++ [ELock; EMutate FCallbacks; EUnlock; ECallback j true].
Proof.
  intros Hall. unfold addDependencies.
  set (q1 := setCallbacks _ _).
  destruct (foldl_addStep_spec j blks q1 ∅ []) as (q2 & d2 & p2 & -> & _ & _ & _ & Hsame).
  destruct Hsame as (-> & -> & ->); [exact Hall|].
  rewrite decide_True by (by rewrite size_empty).
  unfold runCallback. simpl.
  destruct (cb true (mesh q)) as [m err]. simpl.
  eexists. split; [done|]. simpl. rewrite <- !app_assoc. done.
Qed.

(** Some child is registered: the job is stored and nothing is called. *)
Lemma addDependencies_pending j (blks : list N) (cb : callback M) q (id : N) :
  id ∈ blks →
  inQueue q (AsHash32 id) = true ∨ GetBlock id (mesh q) = None →
  ∃ q' deps, addDependencies j blks cb q = (q', (true, None)) ∧
        depMap q' = <[j := deps]> (depMap q) ∧ AsHash32 id ∈ deps ∧
        j ∈ default [] (reverseDepMap q' !! AsHash32 id) ∧
        mesh q' = mesh q ∧ visited q' = visited q ∧
        callbacks q' = <[j := cb]> (callbacks q) ∧
        callbackRuns (trace q') = callbackRuns (trace q).
Proof.
  intros Hid Hc. unfold addDependencies.
  set (q1 := setCallbacks _ _).
  destruct (foldl_addStep_spec j blks q1 ∅ []) as (q2 & d2 & p2 & -> & Hg & _ & Hreg & _).
  destruct (Hreg id Hid Hc) as [Hd Hj].
  rewrite decide_False; last first.
  { intros Hz. apply size_empty_inv in Hz. set_solver. }
  destruct Hg as (Hm & Hv & Hcb & Hdm & Hqu & (evs & Htr & Hevs) & _ & _).
  set (q4 := match p2 with [] => log EUnlock q2 | _ => addToPending p2 (log EUnlock q2) end).
  exists (setDepMap (<[j:=d2]> (depMap q4)) q4), d2.
  split; [done|].
  assert (callbackRuns (trace (log EUnlock q2)) = callbackRuns (trace q)) as Hruns.
  { simpl. rewrite Htr. subst q1. simpl. rewrite !callbackRuns_app.
    rewrite (callbackRuns_silent _ evs) with (2 := Hevs) by (by intros e -> jj r). simpl.
    by rewrite !app_nil_r. }
  subst q4.
  destruct p2; simpl; rewrite ?Hdm, ?Hm, ?Hv, ?Hcb; simpl;
    (split; [done|]); (split; [done|]); (split; [done|]); (split; [done|]);
    (split; [done|]); (split; [done|]);
    rewrite callbackRuns_app; simpl in Hruns; rewrite Hruns; simpl; by rewrite app_nil_r.
Qed.

End adding_facts.

(** *** Single calls *)

Section queue_calls.
Import validation_queue discipline scenarios.
Context {M : Type} `{!ValidationInfra M}.
Implicit Types q : blockQueue M.

#[local] Arguments updateDependencies : simpl never.

Lemma updateDependencies_discipline block valid q :
  ∃ evs, trace (updateDependencies block valid q) = trace q ++ evs ∧
         respects relaxing false evs = true ∧ heldAfter false evs = false.
Proof.
  unfold updateDependencies.
  set (q3 := setVisited _ _).
  pose proof (removefromDepMaps_extends block valid [] q3) as Hx.
  destruct (removefromDepMaps block valid [] q3) as [q4 dq]. simpl in Hx.
  pose proof (drain_extends (drainFuel dq q4) valid dq q4) as Hy.
  destruct (extends_trans _ _ _ _ Hx Hy) as (evs & Ht & Hin).
  exists ([ELock; EMutate FDepMap; EMutate FCallbacks; EMutate FVisited] ++ evs ++ [EUnlock]).
  split.
  { simpl. rewrite Ht. subst q3. simpl. rewrite <- !app_assoc. done. }
  simpl.
  destruct (respects_inner relaxing true evs [EUnlock] Hin) as [-> ->]; [|done].
  eapply Forall_impl; [exact Hin|]. by intros [].
Qed.

Lemma addDependencies_discipline j (blks : list N) (cb : callback M) q :
  ∃ evs, trace (addDependencies j blks cb q).1 = trace q ++ evs ∧
         respects adding false evs = true ∧ heldAfter false evs = false.
Proof.
  unfold addDependencies.
  set (q1 := setCallbacks _ _).
  destruct (foldl_addStep_spec j blks q1 ∅ []) as (q2 & d2 & p2 & -> & Hg & _).
  destruct Hg as (_ & _ & _ & _ & _ & (evs & Htr & Hevs) & _).
  assert (Forall inner evs) as Hin by (eapply Forall_impl; [exact Hevs | by intros ? ->]).
  assert (Forall (λ e, adding e true = true) evs) as Hok
    by (eapply Forall_impl; [exact Hevs | by intros ? ->]).
  set (q4 := match p2 with [] => log EUnlock q2 | _ => addToPending p2 (log EUnlock q2) end).
  assert (∀ tl, trace q4 ++ tl
            = trace q ++ ([ELock; EMutate FCallbacks] ++ evs ++ EUnlock :: tl)) as Hfull.
  { intros tl. subst q4.
    destruct p2; simpl; rewrite Htr; subst q1; simpl; rewrite <- !app_assoc; done. }
  case_decide.
  - unfold runCallback. destruct (cb true _) as [m err]. simpl.
    eexists. split; [apply Hfull|]. simpl.
    by destruct (respects_inner adding true evs [EUnlock; ECallback j true] Hin Hok)
      as [-> ->].
  - simpl. eexists. split; [apply Hfull|]. simpl.
    by destruct (respects_inner adding true evs [EUnlock; EMutate FDepMap] Hin Hok)
      as [-> ->].
Qed.

(** C5, as the code has it.  [updateDependencies], with
    [removefromDepMaps] inside it, takes the free mutex, makes every write
    to [depMap], [reverseDepMap], [callbacks] and [visited] and runs every
    completion callback while it holds the mutex, and releases it at the
    end.  [addDependencies] takes the free mutex, writes [callbacks] and
    [reverseDepMap] while it holds it, and runs its callback after it has
    released it. *)
Theorem C5_lock_discipline block valid j (blks : list N) (cb : callback M) q :
  (∃ evs, trace (updateDependencies block valid q) = trace q ++ evs ∧
          respects relaxing false evs = true ∧ heldAfter false evs = false) ∧
  (∃ evs, trace (addDependencies j blks cb q).1 = trace q ++ evs ∧
          respects adding false evs = true ∧ heldAfter false evs = false).
Proof. split; [apply updateDependencies_discipline | apply addDependencies_discipline]. Qed.


(** C6, as the code has it.  A fetched block that passes fast validation
    and names itself among its view edges is stored as waiting for its own
    hash: the hash is in the dependency set of the block's job, the job in
    the list of those waiting for the hash, the hash in [visited]; no
    callback has run and the mesh is as it was.  Likewise a block that
    names itself among its diff edges while it is in the queue or not in
    the store: [validateBlockView] stores it as waiting for its own hash,
    calls nothing, and answers whatever arrives on its channel. *)
Theorem C6_self_reference_is_left_waiting (blk : Block) q :
  (ID blk ∈ ViewEdges blk →
   validation_queue.fastValidation blk (mesh q) = None →
   let q' := handleBlock (mkFetchJob [BlockHash32 blk] [blk]) q in
   (∃ deps, depMap q' !! JBlock (ID blk) = Some deps ∧ BlockHash32 blk ∈ deps) ∧
   JBlock (ID blk) ∈ default [] (reverseDepMap q' !! BlockHash32 blk) ∧
   BlockHash32 blk ∈ visited q' ∧
   mesh q' = mesh q ∧
   callbackRuns (trace q') = callbackRuns (trace q)) ∧
  (ID blk ∈ syncer.combineBlockDiffs blk →
   inQueue q (BlockHash32 blk) = true ∨ GetBlock (ID blk) (mesh q) = None →
   ∀ received,
   let q' := (syncer.validateBlockView blk received q).1 in
   (syncer.validateBlockView blk received q).2 = received ∧
   (∃ deps, depMap q' !! JBlock (ID blk) = Some deps ∧ BlockHash32 blk ∈ deps) ∧
   JBlock (ID blk) ∈ default [] (reverseDepMap q' !! BlockHash32 blk) ∧
   mesh q' = mesh q ∧
   callbackRuns (trace q') = callbackRuns (trace q)).
Proof.
  split.
  - intros Hself Hfast q'. subst q'.
    unfold handleBlock, itemMap. simpl.
    rewrite lookup_insert_eq. simpl. rewrite Hfast.
    unfold handleBlockDependencies.
    set (q1 := setVisited _ q).
    destruct (addDependencies_pending (JBlock (ID blk)) (ViewEdges blk)
                (finishBlockCallback blk) q1 (ID blk) Hself)
      as (q2 & deps & -> & Hd & Hin & Hj & Hm & Hv & _ & Hruns).
    { left. unfold inQueue. case_decide; [done|].
      rewrite decide_True; [done|]. subst q1. simpl. unfold BlockHash32. set_solver. }
    simpl.
    split; [exists deps; by rewrite Hd, lookup_insert_eq|].
    split; [done|].
    split; [rewrite Hv; subst q1; simpl; set_solver|].
    split; [by rewrite Hm|].
    rewrite Hruns. subst q1. simpl. rewrite callbackRuns_app. simpl. by rewrite app_nil_r.
  - intros Hself Hc received q'. subst q'. unfold syncer.validateBlockView.
    destruct (addDependencies_pending (JBlock (ID blk)) (syncer.combineBlockDiffs blk)
                syncer.foo q (ID blk) Hself Hc)
      as (q2 & deps & -> & Hd & Hin & Hj & Hm & _ & _ & Hruns).
    simpl. split; [done|].
    split; [exists deps; by rewrite Hd, lookup_insert_eq|]. done.
Qed.

End queue_calls.

(** *** The queue at work *)

Section queue_runs.
Import validation_queue discipline scenarios.


(** A child that is in the store and in [visited] all the same is
    registered, for [inQueue] is asked first. *)
Example stored_but_visited_is_waited_for :
  let q := setVisited {[1%N]} stocked in
  is_Some (GetBlock 1%N (mesh q)) ∧
  (addDependencies (JLayer 9) [1%N] syncer.foo q).2 = (true, None) ∧
  queue (addDependencies (JLayer 9) [1%N] syncer.foo q).1 = [].
Proof. vm_compute. split; [eauto | done]. Qed.

Lemma C6_self_reference_is_left_waiting_witness :
  ID selfish ∈ ViewEdges selfish ∧
  validation_queue.fastValidation selfish (mesh q0) = None ∧
  ID selfDiff ∈ syncer.combineBlockDiffs selfDiff ∧
  GetBlock (ID selfDiff) (mesh q0) = None ∧
  (∃ deps, depMap selfishHandled !! JBlock (ID selfish) = Some deps ∧
           BlockHash32 selfish ∈ deps) ∧
  callbackRuns (trace selfishHandled) = callbackRuns (trace q0) ∧
  (syncer.validateBlockView selfDiff false q0).2 = false ∧
  (∃ deps, depMap (syncer.validateBlockView selfDiff false q0).1 !! JBlock (ID selfDiff)
             = Some deps ∧ BlockHash32 selfDiff ∈ deps).
Proof.
  assert (ID selfish ∈ ViewEdges selfish) as Hself by constructor.
  assert (ID selfDiff ∈ syncer.combineBlockDiffs selfDiff) as Hdiff by constructor.
  split; [exact Hself|]. split; [reflexivity|].
  split; [exact Hdiff|]. split; [reflexivity|].
  destruct (C6_self_reference_is_left_waiting selfish q0) as [Hview _].
  destruct (C6_self_reference_is_left_waiting selfDiff q0) as [_ Hd].
  specialize (Hview Hself eq_refl) as (H1 & _ & _ & _ & H2).
  specialize (Hd Hdiff (or_intror eq_refl) false) as (H3 & H4 & _).
  split; [exact H1|]. split; [exact H2|]. split; [exact H3 | exact H4].
Defined.

(** The block that names itself gets no outcome at all, neither through a
    callback nor through an error: it waits for itself, and nothing is left
    to fetch that could end the wait. *)
Lemma C6_self_reference_no_error :
  BlockHash32 selfish ∈ map AsHash32 (ViewEdges selfish) ∧
  callbackRuns (trace selfishHandled) = [] ∧
  depMap selfishHandled !! JBlock 1 = Some {[1%N]} ∧
  reverseDepMap selfishHandled !! 1%N = Some [JBlock 1] ∧
  queue selfishHandled = [] ∧
  GetBlock 1%N (mesh selfishHandled) = None.
Proof. split; [constructor|]. vm_compute. done. Qed.

(** In this run a callback is called between [Lock] and [Unlock], and
    [depMap] is written after [Unlock]. *)
Lemma C5_callback_runs_under_lock :
  let tr := trace (updateDependencies 2%N true
              (updateDependencies 1%N true
                 (addDependencies (JLayer 7) [1; 2]%N syncer.foo q0).1)) in
  callbackRuns tr = [(JLayer 7, true)] ∧
  respects callbacksOutside false tr = false ∧
  respects writesUnderLock false tr = false ∧
  respects specified false tr = false.
Proof. vm_compute. done. Qed.

(** C1, on the code.  Layer 7 waits for the blocks 1 and 2.  Block 1 is
    resolved with [false], then block 2 with [true]: the callback of the
    layer is not called at the first, and called with [true] at the second.
    It is never called with [false]. *)
Theorem C1_failure_of_a_dependency_is_lost :
  let q1 := (addDependencies (JLayer 7) [1; 2]%N syncer.foo q0).1 in
  let q2 := updateDependencies 1%N false q1 in
  let q3 := updateDependencies 2%N true q2 in
  depMap q1 !! JLayer 7 = Some {[1%N; 2%N]} ∧
  callbackRuns (trace q2) = [] ∧
  callbackRuns (trace q3) = [(JLayer 7, true)] ∧
  depMap q3 !! JLayer 7 = None ∧ callbacks q3 !! JLayer 7 = None.
Proof. vm_compute. done. Qed.

(** The same through [handleBlock]: the peers deliver block 2 and not
    block 1, and the layer is reported complete. *)
Example lostBlock_runs :
  callbackRuns (trace lostBlock) = [(JBlock 2, true); (JLayer 7, true)] ∧
  GetBlock 1%N (mesh lostBlock) = None.
Proof. vm_compute. done. Qed.

(** And when the callback of a job fails, the jobs waiting for that job are
    never called: block 2 sees block 1, the layer waits for block 2, and
    the transactions of block 2 cannot be fetched. *)
Example failed_callback_is_not_passed_on :
  let q := work 3 (λ h, snd <$> list_find (λ b, BlockHash32 b = h) [W; X])
             (addDependencies (JLayer 2) [2%N] syncer.foo
                (NewValidationQueue (mkMesh ∅ {[2%N]} ∅))).1 in
  callbackRuns (trace q) = [(JBlock 1, true); (JBlock 2, true)] ∧
  queue q = [] ∧ depMap q !! JLayer 2 = Some {[2%N]} ∧
  GetBlock 2%N (mesh q) = None.
Proof. vm_compute. done. Qed.

Lemma work_idle {M} `{!ValidationInfra M} fuel supply (q : blockQueue M) :
  queue q = [] → work fuel supply q = q.
Proof. intros Hq. destruct fuel; simpl; [done | by rewrite Hq]. Qed.

Lemma work_add {M} `{!ValidationInfra M} a b supply (q : blockQueue M) :
  work (a + b) supply q = work b supply (work a supply q).
Proof.
  revert q. induction a as [|a IH]; intros q; [done|].
  simpl. destruct (queue q) eqn:Hq; [by rewrite work_idle | apply IH].
Qed.

(** C2, on the code.  Layer 5 is synced from an empty queue and store; its
    block P sees X and Q, Q sees Y, Y sees X, X sees W; all five blocks are
    valid and the peers have them.  After four batches nothing is left to
    fetch, however long the worker goes on.  Only W and X have been called
    back: X was completed in the loop of [updateDependencies] and stays in
    [visited], so Y, handled after that, waits for X, which is in the store
    and will not be resolved again.  The callback of the layer is never
    called. *)
Theorem C2_valid_dag_is_left_waiting (n : nat) :
  queue (layer5 (4 + n)) = [] ∧
  callbackRuns (trace (layer5 (4 + n))) = [(JBlock 1, true); (JBlock 2, true)] ∧
  depMap (layer5 (4 + n)) !! JLayer 5 = Some {[5%N]} ∧
  depMap (layer5 (4 + n)) !! JBlock 3 = Some {[2%N]} ∧
  reverseDepMap (layer5 (4 + n)) !! 2%N = Some [JBlock 3] ∧
  2%N ∈ visited (layer5 (4 + n)) ∧
  is_Some (GetBlock 2%N (mesh (layer5 (4 + n)))).
Proof.
  assert (layer5 (4 + n) = layer5 4) as ->.
  { unfold layer5. rewrite work_add. apply work_idle. by vm_compute. }
  vm_compute. repeat split; try done. eauto.
Qed.

(** The same with two layers in a row: layer 2 completes, its block X
    stays in [visited], and layer 3, whose block sees X, never does. *)
Example next_layer_is_left_waiting :
  callbackRuns (trace (layer2then3 3))
    = [(JBlock 1, true); (JBlock 2, true); (JLayer 2, true)] ∧
  queue (layer2then3 3) = [] ∧
  depMap (layer2then3 3) !! JLayer 3 = Some {[3%N]} ∧
  depMap (layer2then3 3) !! JBlock 3 = Some {[2%N]}.
Proof. vm_compute. done. Qed.

End queue_runs.

(** ** Invariants of the dependency queue *)

Section queue_invariants.
Import validation_queue discipline.
Context {M : Type} `{!ValidationInfra M}.
Implicit Types q : blockQueue M.

#[local] Arguments removeStep : simpl never.
#[local] Arguments removefromDepMaps : simpl never.
#[local] Arguments addStep : simpl never.
#[local] Arguments updateDependencies : simpl never.

Lemma shrinks_refl q : shrinks q q.
Proof. repeat split; try done. intros j s' Hs. exists s'. done. Qed.

Lemma shrinks_trans q1 q2 q3 : shrinks q1 q2 → shrinks q2 q3 → shrinks q1 q3.
Proof.
  intros (A1 & A2 & A3 & A4) (B1 & B2 & B3 & B4).
  split; [by etrans|]. split; [by etrans|]. split; [congruence|].
  intros j s3 H3. destruct (B4 j s3 H3) as (s2 & H2 & Hs).
  destruct (A4 j s2 H2) as (s1 & H1 & Hs'). exists s1. split; [done | set_solver].
Qed.

Lemma alter_remove_lookup (block : N) (dep : jobId) (d : gmap jobId (gset N)) j s' :
  alter (λ s, s ∖ {[block]}) dep d !! j = Some s' →
  ∃ s, d !! j = Some s ∧ s' ⊆ s.
Proof.
  destruct (decide (j = dep)) as [->|Hne].
  - rewrite lookup_alter_eq. destruct (d !! dep) as [s|]; simpl; [|done].
    intros [= <-]. exists s. split; [done | set_solver].
  - rewrite lookup_alter_ne by done. intros Hs. exists s'. done.
Qed.

Lemma removeStep_shrinks block valid q (dq : list N) dep :
  shrinks q (removeStep block valid (q, dq) dep).1.
Proof.
  unfold removeStep, runCallback. simpl.
  assert (∀ j s', delete dep (alter (λ s, s ∖ {[block]}) dep (depMap q)) !! j = Some s' →
                  ∃ s, depMap q !! j = Some s ∧ s' ⊆ s) as Hdel.
  { intros j s' [_ Hs]%lookup_delete_Some. by eapply alter_remove_lookup. }
  destruct (decide _) as [Hsz|Hsz]; simpl.
  2:{ repeat split; try done. intros j s'. apply alter_remove_lookup. }
  destruct (callbacks q !! dep) as [cb|] eqn:Hcb; simpl.
  2:{ repeat split; try done. }
  destruct (cb valid (mesh q)) as [m [e|]]; simpl.
  { repeat split; try done. }
  destruct dep; simpl; (split; [done|]); (split; [apply delete_subseteq|]); (split; [done|]); done.
Qed.

Lemma foldl_removeStep_shrinks block valid (deps : list jobId) q (dq : list N) :
  shrinks q (foldl (removeStep block valid) (q, dq) deps).1.
Proof.
  revert q dq. induction deps as [|dep deps IH]; intros q dq; simpl.
  - apply shrinks_refl.
  - pose proof (removeStep_shrinks block valid q dq dep) as Hs.
    destruct (removeStep block valid (q, dq) dep) as [q1 d1]. simpl in Hs.
    eapply shrinks_trans; [exact Hs | apply IH].
Qed.

Lemma removefromDepMaps_shrinks block valid (dq : list N) q :
  shrinks q (removefromDepMaps block valid dq q).1 ∧
  reverseDepMap (removefromDepMaps block valid dq q).1 !! block = None.
Proof.
  unfold removefromDepMaps.
  pose proof (foldl_removeStep_shrinks block valid
                (default [] (reverseDepMap q !! block)) q dq) as Hs.
  destruct (foldl _ _ _) as [q1 d1]. simpl in *.
  split; [|by rewrite lookup_delete_eq].
  eapply shrinks_trans; [exact Hs|].
  split; [apply delete_subseteq|]. repeat split; try done.
  intros j s' Hj. exists s'. done.
Qed.

Lemma drain_shrinks fuel valid (dq : list N) q : shrinks q (drain fuel valid dq q).
Proof.
  revert dq q. induction fuel as [|fuel IH]; intros dq q;
    destruct dq as [|b rest]; simpl; try apply shrinks_refl.
  pose proof (removefromDepMaps_shrinks b valid rest q) as [Hs _].
  destruct (removefromDepMaps b valid rest q) as [q1 d1]. simpl in Hs.
  eapply shrinks_trans; [exact Hs | apply IH].
Qed.

Lemma updateDependencies_shrinks_aux block valid q :
  shrinks q (updateDependencies block valid q) ∧
  reverseDepMap (updateDependencies block valid q) !! block = None.
Proof.
  unfold updateDependencies.
  set (q3 := setVisited _ _).
  assert (shrinks q q3) as H3.
  { subst q3. split; [done|]. split; [apply delete_subseteq|]. split; [done|].
    simpl. intros j s' [_ Hs]%lookup_delete_Some. exists s'. done. }
  pose proof (removefromDepMaps_shrinks block valid [] q3) as [Hs Hn].
  destruct (removefromDepMaps block valid [] q3) as [q4 dq]. simpl in *.
  pose proof (drain_shrinks (drainFuel dq q4) valid dq q4) as Hd.
  split.
  - eapply shrinks_trans; [exact H3|]. eapply shrinks_trans; [exact Hs|].
    destruct Hd as (D1 & D2 & D3 & D4). repeat split; done.
  - destruct Hd as (D1 & _). simpl. eapply lookup_weaken_None; [exact Hn | exact D1].
Qed.


Lemma removeStep_depMap block valid q (dq : list N) dep :
  let d := alter (λ s, s ∖ {[block]}) dep (depMap q) in
  depMap (removeStep block valid (q, dq) dep).1
  = if decide (size (default ∅ (d !! dep)) = 0) then delete dep d else d.
Proof.
  unfold removeStep, runCallback. simpl.
  destruct (decide _) as [Hsz|Hsz]; simpl; [|done].
  destruct (callbacks q !! dep) as [cb|]; simpl; [|done].
  destruct (cb valid (mesh q)) as [m [e|]]; simpl; [done|].
  by destruct dep.
Qed.

Lemma removeStep_nonEmpty block valid q (dq : list N) dep :
  nonEmptyDeps q → nonEmptyDeps (removeStep block valid (q, dq) dep).1.
Proof.
  intros Hq j s. rewrite removeStep_depMap. simpl.
  destruct (decide _) as [Hsz|Hsz].
  - intros [Hne Hs]%lookup_delete_Some. rewrite lookup_alter_ne in Hs by done.
    by eapply Hq.
  - destruct (decide (j = dep)) as [->|Hne].
    + intros Hs. rewrite Hs in Hsz. simpl in Hsz. intros ->. by rewrite size_empty in Hsz.
    + rewrite lookup_alter_ne by done. apply Hq.
Qed.

Lemma removefromDepMaps_nonEmpty block valid (dq : list N) q :
  nonEmptyDeps q → nonEmptyDeps (removefromDepMaps block valid dq q).1.
Proof.
  intros Hq. unfold removefromDepMaps.
  assert (∀ deps q dq, nonEmptyDeps q →
            nonEmptyDeps (foldl (removeStep block valid) (q, dq) deps).1) as Hfold.
  { induction deps as [|dep deps IH]; intros q' dq' Hq'; simpl; [done|].
    pose proof (removeStep_nonEmpty block valid q' dq' dep Hq') as Hs.
    destruct (removeStep block valid (q', dq') dep) as [q1 d1]. by apply IH. }
  specialize (Hfold (default [] (reverseDepMap q !! block)) q dq Hq).
  by destruct (foldl _ _ _) as [q1 d1].
Qed.

Lemma drain_nonEmpty fuel valid (dq : list N) q :
  nonEmptyDeps q → nonEmptyDeps (drain fuel valid dq q).
Proof.
  revert dq q. induction fuel as [|fuel IH]; intros dq q Hq;
    destruct dq as [|b rest]; simpl; try exact Hq.
  pose proof (removefromDepMaps_nonEmpty b valid rest q Hq) as Hs.
  destruct (removefromDepMaps b valid rest q) as [q1 d1]. by apply IH.
Qed.

Lemma updateDependencies_nonEmpty block valid q :
  nonEmptyDeps q → nonEmptyDeps (updateDependencies block valid q).
Proof.
  intros Hq. unfold updateDependencies.
  set (q3 := setVisited _ _).
  assert (nonEmptyDeps q3) as H3.
  { subst q3. intros j s. simpl. intros [_ Hs]%lookup_delete_Some. by eapply Hq. }
  pose proof (removefromDepMaps_nonEmpty block valid [] q3 H3) as Hs.
  destruct (removefromDepMaps block valid [] q3) as [q4 dq].
  intros j s. simpl. by apply drain_nonEmpty.
Qed.

Lemma addDependencies_nonEmpty j (blks : list N) (cb : callback M) q :
  nonEmptyDeps q → nonEmptyDeps (addDependencies j blks cb q).1.
Proof.
  intros Hq. unfold addDependencies.
  set (q1 := setCallbacks _ _).
  destruct (foldl_addStep_spec j blks q1 ∅ []) as (q2 & d2 & p2 & -> & Hg & _).
  destruct Hg as (_ & _ & _ & Hdm & _).
  set (q4 := match p2 with [] => log EUnlock q2 | _ => addToPending p2 (log EUnlock q2) end).
  assert (depMap q4 = depMap q) as H4 by (subst q4; destruct p2; simpl; by rewrite Hdm).
  clearbody q4. unfold nonEmptyDeps.
  case_decide as Hsz.
  - unfold runCallback. destruct (cb true _) as [m err]. simpl.
    intros j' s. rewrite H4. apply Hq.
  - simpl. intros j' s. rewrite H4.
    destruct (decide (j' = j)) as [->|Hne].
    + rewrite lookup_insert_eq. intros [= <-] ->. by rewrite size_empty in Hsz.
    + rewrite lookup_insert_ne by done. apply Hq.
Qed.

Lemma handleBlockDependencies_nonEmpty (blk : Block) q :
  nonEmptyDeps q → nonEmptyDeps (handleBlockDependencies blk q).
Proof.
  intros Hq. unfold handleBlockDependencies.
  pose proof (addDependencies_nonEmpty (JBlock (ID blk)) (ViewEdges blk)
                (finishBlockCallback blk) q Hq) as Ha.
  destruct (addDependencies _ _ _ q) as [q1 [res err]]. simpl in Ha.
  destruct (isErr err), res; auto using updateDependencies_nonEmpty.
Qed.

Lemma handleIds_nonEmpty mp (l : list N) q :
  nonEmptyDeps q → nonEmptyDeps (handleIds mp l q).
Proof.
  revert q. induction l as [|id l IH]; intros q Hq; simpl; [done|].
  destruct (mp !! id) as [block|].
  - assert (nonEmptyDeps (setVisited (visited q ∪ {[id]}) q)) as H1 by exact Hq.
    destruct (fastValidation block _).
    + by apply updateDependencies_nonEmpty.
    + by apply IH, handleBlockDependencies_nonEmpty.
  - by apply IH, updateDependencies_nonEmpty.
Qed.


Lemma drain_nil fuel valid q : drain fuel valid [] q = q.
Proof. by destruct fuel. Qed.

Lemma updateDependencies_nobody_waits block valid q :
  reverseDepMap q !! block = None →
  callbackRuns (trace (updateDependencies block valid q)) = callbackRuns (trace q).
Proof.
  intros Hn. unfold updateDependencies, removefromDepMaps. simpl.
  rewrite Hn. simpl. rewrite drain_nil. simpl.
  rewrite !callbackRuns_app. simpl. by rewrite !app_nil_r.
Qed.

Lemma drainRun_drain fuel valid (dq : list N) q :
  drainFuel dq q ≤ fuel → drainRun fuel valid dq q = Some (drain fuel valid dq q).
Proof.
  revert dq q. induction fuel as [|fuel IH]; intros dq q Hf; destruct dq as [|b rest];
    simpl; try done.
  - unfold drainFuel in Hf. simpl in Hf. lia.
  - pose proof (removefromDepMaps_measure b valid rest q) as Hs.
    destruct (removefromDepMaps b valid rest q) as [q1 d1]. simpl in Hs.
    apply IH. unfold drainFuel in *. simpl in *. lia.
Qed.

Lemma handleIds_stops mp (ids1 : list N) (id : N) (ids2 : list N) (block : Block) q :
  mp !! id = Some block → (∀ m, fastValidation block m ≠ None) →
  handleIds mp (ids1 ++ id :: ids2) q = handleIds mp (ids1 ++ [id]) q.
Proof.
  intros Hmp Hfast. revert q. induction ids1 as [|a ids1 IH]; intros q; simpl.
  - rewrite Hmp. destruct (fastValidation block _) eqn:Hf; [done|]. by apply Hfast in Hf.
  - destruct (mp !! a) as [b|]; [|apply IH].
    destruct (fastValidation b _); [done | apply IH].
Qed.

Lemma addStep_push j q (deps : gset N) (push : list N) (id : N) :
  let st := addStep j (q, deps, push) id in
  grows q st.1.1 ∧
  (st.2 = push ∨
   st.2 = push ++ [AsHash32 id] ∧ inQueue q (AsHash32 id) = false ∧
   GetBlock id (mesh q) = None ∧ inQueue st.1.1 (AsHash32 id) = true).
Proof.
  unfold addStep. simpl.
  destruct (inQueue q (AsHash32 id)) eqn:Hin; simpl.
  - split; [apply register_grows | by left].
  - destruct (GetBlock id (mesh q)) as [b|] eqn:Hget; simpl.
    + split; [apply grows_refl | by left].
    + split; [apply register_grows|]. right. split; [done|]. split; [done|]. split; [done|].
      unfold inQueue. simpl. rewrite decide_True; [done|].
      rewrite lookup_insert_eq. eauto.
Qed.

Lemma foldl_addStep_push j (blks : list N) q (deps : gset N) (push : list N) :
  let st := foldl (addStep j) (q, deps, push) blks in
  grows q st.1.1 ∧
  ∃ new, st.2 = push ++ new ∧ NoDup new ∧
    ∀ h, h ∈ new →
      inQueue q h = false ∧ inQueue st.1.1 h = true ∧
      ∃ id, id ∈ blks ∧ h = AsHash32 id ∧ GetBlock id (mesh q) = None.
Proof.
  revert q deps push. induction blks as [|id blks IH]; intros q deps push; simpl.
  - split; [apply grows_refl|]. exists []. rewrite app_nil_r. split; [done|].
    split; [constructor|]. intros h Hh. by apply elem_of_nil in Hh.
  - pose proof (addStep_push j q deps push id) as [Hg1 Hp1]. simpl in Hg1, Hp1.
    destruct (addStep j (q, deps, push) id) as [[q1 d1] p1]. simpl in Hg1, Hp1.
    destruct (IH q1 d1 p1) as [Hg2 (new2 & Hp2 & Hnd & Hall)].
    set (st := foldl (addStep j) (q1, d1, p1) blks) in *.
    split; [by eapply grows_trans|].
    assert (mesh q1 = mesh q) as Hm by apply Hg1.
    assert (∀ h, h ∈ new2 →
      inQueue q h = false ∧ inQueue st.1.1 h = true ∧
      ∃ id0, id0 ∈ id :: blks ∧ h = AsHash32 id0 ∧ GetBlock id0 (mesh q) = None) as Hall'.
    { intros h Hh. destruct (Hall h Hh) as (H1 & H2 & id0 & Hid0 & -> & Hget).
      split.
      - destruct (inQueue q (AsHash32 id0)) eqn:Hq; [|done].
        by rewrite (inQueue_grows _ _ _ Hg1 Hq) in H1.
      - split; [done|]. exists id0. split; [by right|]. split; [done|]. by rewrite <- Hm. }
    destruct Hp1 as [->|(-> & Hq & Hget & Hq1)].
    + exists new2. split; [done|]. split; [done|]. exact Hall'.
    + exists (AsHash32 id :: new2). split; [by rewrite Hp2, <- app_assoc|].
      split.
      * apply NoDup_cons. split; [|done]. intros Hin.
        destruct (Hall _ Hin) as (Hf & _). by rewrite Hq1 in Hf.
      * intros h [->|Hh]%elem_of_cons; [|by apply Hall'].
        split; [done|]. split; [by eapply inQueue_grows|].
        exists id. split; [by left|]. done.
Qed.


Lemma inQueue_register_ne q (bid h : N) (j : jobId) :
  h ≠ bid →
  inQueue (setReverseDepMap
             (<[bid := default [] (reverseDepMap q !! bid) ++ [j]]> (reverseDepMap q)) q) h
  = inQueue q h.
Proof. intros Hne. unfold inQueue. simpl. by rewrite lookup_insert_ne. Qed.

Lemma foldl_addStep_push_all j (blks : list N) q (deps : gset N) (push : list N) (id : N) :
  id ∈ blks → inQueue q (AsHash32 id) = false → GetBlock id (mesh q) = None →
  AsHash32 id ∈ (foldl (addStep j) (q, deps, push) blks).2.
Proof.
  revert q deps push. induction blks as [|id0 blks IH]; intros q deps push Hin Hq Hget.
  { by apply elem_of_nil in Hin. }
  simpl.
  assert (∀ q1 d1 p1, AsHash32 id ∈ p1 →
            AsHash32 id ∈ (foldl (addStep j) (q1, d1, p1) blks).2) as Hkeep.
  { intros q1 d1 p1 Hp.
    destruct (foldl_addStep_push j blks q1 d1 p1) as [_ (new & -> & _)].
    apply elem_of_app. by left. }
  unfold addStep at 2. cbv beta iota zeta.
  destruct (decide (id = id0)) as [<-|Hne].
  - rewrite Hq, Hget. apply Hkeep. apply elem_of_app. right. by left.
  - apply elem_of_cons in Hin as [?|Hin]; [done|].
    destruct (inQueue q (AsHash32 id0)) eqn:Hq0.
    + apply IH; [done | by rewrite inQueue_register_ne | done].
    + destruct (GetBlock id0 (mesh q)) eqn:Hg0.
      * by apply IH.
      * apply IH; [done | by rewrite inQueue_register_ne | done].
Qed.

(** X1.  No job is ever stored as waiting for nothing: if every dependency
    set in [depMap] is non-empty, it is so after [addDependencies], after
    [updateDependencies] and after [handleBlock]. *)
Theorem dependency_sets_are_never_empty q :
  nonEmptyDeps q →
  (∀ j (blks : list N) (cb : callback M), nonEmptyDeps (addDependencies j blks cb q).1) ∧
  (∀ block valid, nonEmptyDeps (updateDependencies block valid q)) ∧
  (∀ bjb, nonEmptyDeps (handleBlock bjb q)).
Proof.
  intros Hq. split; [|split].
  - intros. by apply addDependencies_nonEmpty.
  - intros. by apply updateDependencies_nonEmpty.
  - intros. by apply handleIds_nonEmpty.
Qed.

(** X2.  [updateDependencies] registers nothing: it adds no entry to
    [reverseDepMap] or [callbacks], no job and no dependency to [depMap],
    hands nothing to the fetch queue, and takes the hash it was called with,
    and no other, out of [visited]. *)
Theorem updateDependencies_registers_nothing block valid q :
  shrinks q (updateDependencies block valid q) ∧
  visited (updateDependencies block valid q) = visited q ∖ {[block]}.
Proof.
  split; [apply updateDependencies_shrinks_aux | apply updateDependencies_visited].
Qed.

(** X3.  Once [updateDependencies] has run for a hash, the hash is not in
    the queue: a later [addDependencies] looks the block up in the store. *)
Theorem resolved_hash_is_not_in_queue block valid q :
  inQueue (updateDependencies block valid q) block = false.
Proof.
  unfold inQueue.
  destruct (updateDependencies_shrinks_aux block valid q) as [_ Hn].
  rewrite decide_False by (rewrite Hn; by intros [? ?]).
  rewrite decide_False; [done|].
  rewrite updateDependencies_visited. set_solver.
Qed.

(** X4.  A second [updateDependencies] for the same hash runs no callback,
    whatever the two outcomes are: the jobs that waited for the hash were
    told the first outcome only. *)
Theorem second_announcement_runs_no_callback block v1 v2 q :
  callbackRuns (trace (updateDependencies block v2 (updateDependencies block v1 q)))
  = callbackRuns (trace (updateDependencies block v1 q)).
Proof.
  apply updateDependencies_nobody_waits.
  apply updateDependencies_shrinks_aux.
Qed.

(** X5.  The loop of [updateDependencies] ends: it empties [doneQueue]
    within as many rounds as [doneQueue] is long plus the number of
    registered callbacks. *)
Theorem updateDependencies_loop_ends valid (dq : list N) q extra :
  drainRun (drainFuel dq q + extra) valid dq q
  = Some (drain (drainFuel dq q) valid dq q).
Proof.
  rewrite drainRun_drain by lia. f_equal. apply drain_fuel; lia.
Qed.

(** X6.  [handleBlock] gives up on a batch at the first block that fails
    fast validation: the ids after it are not looked at, whatever was
    fetched for them. *)
Theorem handleBlock_stops_at_invalid_block (its : list Block) (ids1 : list N) (id : N)
    (ids2 : list N) (block : Block) q :
  itemMap its !! id = Some block → (∀ m, fastValidation block m ≠ None) →
  handleBlock (mkFetchJob (ids1 ++ id :: ids2) its) q
  = handleBlock (mkFetchJob (ids1 ++ [id]) its) q.
Proof. intros Hmp Hfast. unfold handleBlock. simpl. by eapply handleIds_stops. Qed.

(** X7.  The batch [addDependencies] hands to the fetch queue holds exactly
    the children that are neither in the queue nor in the store, each of
    them once; when there is none, nothing is handed over. *)
Theorem addDependencies_fetches_what_is_missing_once j (blks : list N) (cb : callback M) q :
  ∃ new, NoDup new ∧
    (∀ h, h ∈ new ↔
       inQueue q h = false ∧ ∃ id, id ∈ blks ∧ h = AsHash32 id ∧ GetBlock id (mesh q) = None) ∧
    queue (addDependencies j blks cb q).1
    = queue q ++ match new with [] => [] | _ => [new] end.
Proof.
  unfold addDependencies.
  set (q1 := setCallbacks _ _).
  pose proof (foldl_addStep_push j blks q1 ∅ []) as [Hg (new & Hp & Hnd & Hall)].
  pose proof (foldl_addStep_push_all j blks q1 ∅ []) as Hcomplete.
  destruct (foldl (addStep j) (q1, ∅, []) blks) as [[q2 d2] p2]. simpl in *.
  subst p2. exists new. split; [done|]. split.
  - intros h. split.
    + intros Hh. destruct (Hall h Hh) as (H1 & _ & H3). done.
    + intros (Hq & id & Hid & -> & Hget). by apply Hcomplete.
  - assert (queue q2 = queue q) as Hqq by apply Hg.
    destruct new as [|h new']; case_decide; simpl;
      try (unfold runCallback; destruct (cb true _) as [m err]; simpl);
      rewrite Hqq; by rewrite ?app_nil_r.
Qed.

End queue_invariants.

Section queue_invariant_runs.
Import validation_queue discipline scenarios.

Lemma dependency_sets_are_never_empty_witness :
  nonEmptyDeps q0 ∧
  nonEmptyDeps (addDependencies (JLayer 7) [1; 2]%N syncer.foo q0).1 ∧
  depMap (addDependencies (JLayer 7) [1; 2]%N syncer.foo q0).1 !! JLayer 7
    = Some {[1%N; 2%N]}.
Proof.
  assert (nonEmptyDeps q0) as H0
    by (intros j s Hs; exfalso; exact (lookup_empty_Some (M:=gmap jobId) j s Hs)).
  split; [exact H0|]. split; [|by vm_compute].
  destruct (dependency_sets_are_never_empty q0 H0) as [Hadd _].
  exact (Hadd (JLayer 7) [1; 2]%N syncer.foo).
Defined.

Lemma handleBlock_stops_at_invalid_block_witness :
  itemMap [dupTx; blk 2 1 []] !! 1%N = Some dupTx ∧
  (∀ m : simpleMesh, fastValidation dupTx m ≠ None) ∧
  handleBlock (mkFetchJob ([] ++ 1%N :: [2%N]) [dupTx; blk 2 1 []]) q0
  = handleBlock (mkFetchJob ([] ++ [1%N]) [dupTx; blk 2 1 []]) q0.
Proof.
  assert (itemMap [dupTx; blk 2 1 []] !! 1%N = Some dupTx) as Hmp by (by vm_compute).
  assert (∀ m : simpleMesh, fastValidation dupTx m ≠ None) as Hfast.
  { intros m Hn.
    assert (¬ NoDup (TxIDs dupTx)) as Hdup.
    { intros Hd. apply NoDup_cons in Hd as [Hd _]. apply Hd. constructor. }
    assert (isErr (fastValidation dupTx m) = true) as Herr
      by exact (fastValidation_dup _ dupTx (or_introl Hdup)).
    rewrite Hn in Herr. discriminate Herr. }
  split; [exact Hmp|]. split; [exact Hfast|].
  apply (handleBlock_stops_at_invalid_block [dupTx; blk 2 1 []] [] 1%N [2%N] dupTx q0 Hmp Hfast).
Defined.

(** The same batch, run: block 2 is valid and was delivered, and is neither
    admitted nor turned down. *)
Example batch_after_invalid_block_is_dropped :
  let q := handleBlock (mkFetchJob [1; 2]%N [dupTx; blk 2 1 []])
             (addDependencies (JLayer 1) [1; 2]%N syncer.foo q0).1 in
  callbackRuns (trace q) = [] ∧ GetBlock 2%N (mesh q) = None ∧
  depMap q !! JLayer 1 = Some {[2%N]}.
Proof. by vm_compute. Qed.

End queue_invariant_runs.

(** ** Outcomes and callbacks *)

Section outcome_facts.
Import validation_queue discipline.
Context {M : Type} `{!ValidationInfra M}.
Implicit Types q : blockQueue M.

#[local] Arguments removeStep : simpl never.
#[local] Arguments removefromDepMaps : simpl never.
#[local] Arguments updateDependencies : simpl never.

(** X8.  The callback of a fetched block does nothing when it is told
    [false].  Told [true], it succeeds exactly when the block's data is
    available, its votes are valid and the mesh takes the block or has it
    already: [ErrAlreadyExist] is not a failure. *)
Theorem finishBlockCallback_succeeds_when_the_block_is_in (block : Block) (m : M) :
  finishBlockCallback block false m = (m, None) ∧
  ((finishBlockCallback block true m).2 = None ↔
   (DataAvailabilty block m).2 = None ∧
   validateVotes block (DataAvailabilty block m).1 = true ∧
   ((AddBlockWithTxs block (DataAvailabilty block m).1).2 = None ∨
    (AddBlockWithTxs block (DataAvailabilty block m).1).2 = Some ErrAlreadyExist)).
Proof.
  split; [done|]. unfold finishBlockCallback. simpl.
  destruct (DataAvailabilty block m) as [m1 [e|]]; simpl.
  { split; [done | by intros [? _]]. }
  destruct (validateVotes block m1); simpl; [|split; [done | by intros (_ & ? & _)]].
  destruct (AddBlockWithTxs block m1) as [m2 [e2|]]; simpl; [|naive_solver].
  case_decide as He; simpl; [subst; naive_solver|].
  split; [done|]. intros (_ & _ & [?|[= ->]]); done.
Qed.

Lemma told_refl valid q : told valid q q.
Proof. split; [done|]. exists []. by rewrite app_nil_r. Qed.

Lemma told_trans valid q1 q2 q3 : told valid q1 q2 → told valid q2 q3 → told valid q1 q3.
Proof.
  intros [Hc1 (r1 & Ht1 & Hf1)] [Hc2 (r2 & Ht2 & Hf2)].
  split; [by etrans|]. exists (r1 ++ r2). split; [by rewrite Ht2, Ht1, app_assoc|].
  apply Forall_app. split; [done|].
  eapply Forall_impl; [exact Hf2|]. intros [j r] [Hr [cb Hj]]. split; [done|].
  exists cb. eapply lookup_weaken; [exact Hj | exact Hc1].
Qed.

Lemma told_silent valid q q' (evs : list event) :
  callbacks q' ⊆ callbacks q → trace q' = trace q ++ evs →
  Forall (λ e, (∃ f, e = EMutate f) ∨ e = ELock ∨ e = EUnlock) evs →
  told valid q q'.
Proof.
  intros Hc Ht Hevs. split; [done|]. exists []. split; [|done].
  rewrite Ht, callbackRuns_app, app_nil_r.
  rewrite (callbackRuns_silent _ evs) with (2 := Hevs); [by rewrite app_nil_r|].
  intros e [[f ->]|[->| ->]] jj r; done.
Qed.

Ltac silent_events :=
  repeat first [apply Forall_nil | apply Forall_cons; split]; eauto.

Lemma removeStep_told block valid q (dq : list N) dep :
  told valid q (removeStep block valid (q, dq) dep).1.
Proof.
  unfold removeStep, runCallback. simpl.
  destruct (decide _) as [Hsz|Hsz]; simpl.
  2:{ eapply told_silent with (evs := [_]); [done | done | silent_events]. }
  destruct (callbacks q !! dep) as [cb|] eqn:Hcb; simpl.
  2:{ eapply told_silent with (evs := [_; _]);
        [done | simpl; rewrite <- ?app_assoc; reflexivity |].
      silent_events. }
  destruct (cb valid (mesh q)) as [m [e|]]; simpl.
  - split; [done|]. exists [(dep, valid)]. simpl.
    rewrite !callbackRuns_app. simpl. rewrite !app_nil_r. split; [done|].
    repeat constructor; eauto.
  - assert (told valid q
              (setCallbacks (delete dep (callbacks q))
                 (setMesh m (log (ECallback dep valid)
                    (setDepMap (delete dep (alter (λ s, s ∖ {[block]}) dep (depMap q)))
                       (setDepMap (alter (λ s, s ∖ {[block]}) dep (depMap q)) q)))))) as Ht.
    { split; [apply delete_subseteq|]. exists [(dep, valid)]. simpl.
      rewrite !callbackRuns_app. simpl. rewrite !app_nil_r. split; [done|].
      repeat constructor; eauto. }
    by destruct dep.
Qed.

Lemma removefromDepMaps_told block valid (dq : list N) q :
  told valid q (removefromDepMaps block valid dq q).1.
Proof.
  unfold removefromDepMaps.
  assert (∀ deps q dq, told valid q (foldl (removeStep block valid) (q, dq) deps).1) as Hfold.
  { induction deps as [|dep deps IH]; intros q' dq'; simpl; [apply told_refl|].
    pose proof (removeStep_told block valid q' dq' dep) as Hs.
    destruct (removeStep block valid (q', dq') dep) as [q1 d1].
    eapply told_trans; [exact Hs | apply IH]. }
  specialize (Hfold (default [] (reverseDepMap q !! block)) q dq).
  destruct (foldl _ _ _) as [q1 d1]. simpl in *.
  eapply told_trans; [exact Hfold|].
  eapply told_silent with (evs := [_]); [done | done | silent_events].
Qed.

Lemma drain_told fuel valid (dq : list N) q : told valid q (drain fuel valid dq q).
Proof.
  revert dq q. induction fuel as [|fuel IH]; intros dq q;
    destruct dq as [|b rest]; simpl; try apply told_refl.
  pose proof (removefromDepMaps_told b valid rest q) as Hs.
  destruct (removefromDepMaps b valid rest q) as [q1 d1].
  eapply told_trans; [exact Hs | apply IH].
Qed.

(** X9.  Whatever [updateDependencies] sets off, every callback it runs
    is told the outcome it was called with, also the callbacks of the jobs
    that are completed further down; and it runs no callback that was not
    registered. *)
Theorem updateDependencies_passes_the_outcome_on block valid q :
  ∃ runs,
    callbackRuns (trace (updateDependencies block valid q))
    = callbackRuns (trace q) ++ runs ∧
    Forall (λ jr, jr.2 = valid ∧ is_Some (callbacks q !! jr.1)) runs.
Proof.
  assert (told valid q (updateDependencies block valid q)) as [_ Ht]; [|exact Ht].
  unfold updateDependencies.
  set (q3 := setVisited _ _).
  assert (told valid q q3) as H3.
  { eapply told_silent with (evs := [_; _; _; _]).
    - subst q3. simpl. apply delete_subseteq.
    - subst q3. simpl. rewrite <- ?app_assoc. reflexivity.
    - silent_events. }
  pose proof (removefromDepMaps_told block valid [] q3) as H4.
  destruct (removefromDepMaps block valid [] q3) as [q4 dq]. simpl in H4.
  pose proof (drain_told (drainFuel dq q4) valid dq q4) as H5.
  eapply told_trans; [exact H3|]. eapply told_trans; [exact H4|].
  eapply told_trans; [exact H5|].
  eapply told_silent with (evs := [_]); [done | done | silent_events].
Qed.

End outcome_facts.

(** ** Reading and setting the gossip status *)

Section status_facts.
Import syncer.

Lemma setGossip_status (st : Z) (s s1 : Syncer) :
  setGossipBufferingStatus st s = Some s1 → gossipSynced s1 = st.
Proof.
  unfold setGossipBufferingStatus. case_decide as Heq; [by intros [= <-]|].
  destruct (notifySubscribers _ _ _) as [s2|]; simpl; [|done]. by intros [= <-].
Qed.

(** X10.  Setting the status the syncer has already is no change at all: no
    channel is closed and none is made, so setting a status twice is
    setting it once. *)
Theorem setting_the_status_twice_is_setting_it_once (st : Z) (s : Syncer) :
  setAll [st; st] s = setAll [st] s.
Proof.
  simpl. destruct (setGossipBufferingStatus st s) as [s1|] eqn:Hset; simpl; [|done].
  apply setGossip_status in Hset.
  unfold setGossipBufferingStatus. by rewrite decide_True.
Qed.

(** X11.  On a syncer that has gone through any sequence of status changes,
    [IsSynced] means that the await channel is closed, that the node listens
    to gossip and that the hare may run. *)
Theorem synced_node_has_released_its_subscribers (sts : list Z) (s : Syncer)
    (AlwaysListen : bool) (latest current : N) :
  setAll sts NewSync = Some s →
  IsSynced latest current s = true →
  Await s ∈ closedChans s ∧ ListenToGossip AlwaysListen s = true ∧
  IsHareSynced latest current s = true ∧ weaklySynced latest current = true.
Proof.
  intros Hrun Hsync.
  destruct (setAll_inv sts NewSync NewSync_inv) as (s' & Hrun' & Hinv).
  rewrite Hrun in Hrun'. injection Hrun' as <-.
  unfold IsSynced in Hsync. apply andb_true_iff in Hsync as [Hw Hd].
  apply bool_decide_eq_true in Hd. unfold getGossipBufferingStatus in Hd.
  split; [by apply Hinv|]. split.
  - unfold ListenToGossip, getGossipBufferingStatus. rewrite Hd.
    by rewrite orb_true_r.
  - split; [|done]. unfold IsHareSynced, IsSynced, getGossipBufferingStatus.
    rewrite Hw, Hd. by rewrite orb_true_r.
Qed.

Lemma synced_node_has_released_its_subscribers_witness :
  setAll [inProgress; done] NewSync = Some (mkSyncer done 0 {[0]} 1) ∧
  IsSynced 6 7 (mkSyncer done 0 {[0]} 1) = true ∧
  Await (mkSyncer done 0 {[0]} 1) ∈ closedChans (mkSyncer done 0 {[0]} 1) ∧
  ListenToGossip false (mkSyncer done 0 {[0]} 1) = true ∧
  IsHareSynced 6 7 (mkSyncer done 0 {[0]} 1) = true ∧ weaklySynced 6 7 = true.
Proof.
  assert (setAll [inProgress; done] NewSync = Some (mkSyncer done 0 {[0]} 1)) as Hrun.
  { vm_compute. f_equal. }
  assert (IsSynced 6 7 (mkSyncer done 0 {[0]} 1) = true) as Hs by (by vm_compute).
  split; [exact Hrun|]. split; [exact Hs|].
  exact (synced_node_has_released_its_subscribers [inProgress; done]
           (mkSyncer done 0 {[0]} 1) false 6%N 7%N Hrun Hs).
Defined.

End status_facts.

(** ** Hashes and ids from the peers *)

Section hash_facts.
Import syncer scenarios.

#[local] Arguments answeredWith : simpl never.

(** The loop over the answers, from any map and flag. *)
Lemma hash_loop_spec (e : N) (outputs : list (option peerHashPair))
    (m0 : gmap N (list N)) (has0 : bool) :
  ∃ m has,
    foldl (λ '(m, has) out,
             match out with
             | Some php =>
               if decide (hash php ≠ e)
               then (<[hash php := default [] (m !! hash php) ++ [peer php]]> m, true)
               else (m, has)
             | None => (m, has)
             end) (m0, has0) outputs = (m, has) ∧
    (∀ h, default [] (m !! h) = default [] (m0 !! h) ++ answeredWith e h outputs) ∧
    (∀ h, m !! h = None ↔ m0 !! h = None ∧ answeredWith e h outputs = []) ∧
    (has = true ↔ has0 = true ∨ ∃ php, Some php ∈ outputs ∧ hash php ≠ e).
Proof.
  revert m0 has0. induction outputs as [|out outputs IH]; intros m0 has0.
  - exists m0, has0. split; [done|]. split; [intros h; by rewrite app_nil_r|].
    split; [naive_solver|]. split; [by left|].
    intros [?|(php & Hin & _)]; [done | by apply elem_of_nil in Hin].
  - simpl. destruct out as [php|].
    + destruct (decide (hash php ≠ e)) as [Hne|Heq].
      * destruct (IH (<[hash php := default [] (m0 !! hash php) ++ [peer php]]> m0) true)
          as (m & has & -> & Hl & Hn & Hh).
        exists m, has. split; [done|]. split; [|split].
        -- intros h. rewrite Hl. unfold answeredWith. simpl.
           destruct (decide (hash php = h)) as [<-|Hdiff].
           ++ rewrite lookup_insert_eq. simpl. rewrite decide_True by done.
              by rewrite <- app_assoc.
           ++ rewrite lookup_insert_ne by done.
              rewrite decide_False by (intros [? ?]; done). done.
        -- intros h. rewrite Hn. unfold answeredWith. simpl.
           destruct (decide (hash php = h)) as [<-|Hdiff].
           ++ rewrite lookup_insert_eq. rewrite decide_True by done. naive_solver.
           ++ rewrite lookup_insert_ne by done.
              rewrite decide_False by (intros [? ?]; done). done.
        -- rewrite Hh. split; [|tauto]. intros _. right. exists php. split; [by left | done].
      * destruct (IH m0 has0) as (m & has & -> & Hl & Hn & Hh).
        exists m, has. split; [done|].
        assert (∀ h, answeredWith e h (Some php :: outputs) = answeredWith e h outputs) as Ha.
        { intros h. unfold answeredWith. simpl.
          rewrite decide_False by (intros [? ?]; done). done. }
        split; [intros h; by rewrite Ha|]. split; [intros h; by rewrite Ha|].
        rewrite Hh. split.
        -- intros [?|(p & Hin & Hp)]; [by left|]. right. exists p. split; [by right | done].
        -- intros [?|(p & [Hp|Hin]%elem_of_cons & Hpe)]; [by left | | right; eauto].
           injection Hp as ->. done.
    + destruct (IH m0 has0) as (m & has & -> & Hl & Hn & Hh).
      exists m, has. split; [done|].
      split; [done|]. split; [done|].
      rewrite Hh. split.
      * intros [?|(p & Hin & Hp)]; [by left|]. right. exists p. split; [by right | done].
      * intros [?|(p & [Hp|Hin]%elem_of_cons & Hpe)]; [by left | done | right; eauto].
Qed.

Lemma answeredWith_nonempty (e : N) (outputs : list (option peerHashPair)) php :
  Some php ∈ outputs → hash php ≠ e → answeredWith e (hash php) outputs ≠ [].
Proof.
  intros Hin Hne Hnil.
  assert (peer php ∈ answeredWith e (hash php) outputs) as Hp.
  { unfold answeredWith. apply list_elem_of_omap. exists (Some php). split; [done|].
    simpl. by rewrite decide_True. }
  rewrite Hnil in Hp. by apply elem_of_nil in Hp.
Qed.

Lemma fetchLayerHashes_spec (e : N) (outputs : list (option peerHashPair)) :
  match fetchLayerHashes e outputs with
  | inr err => err = errNoBlocksInLayer ∧ ∀ php, Some php ∈ outputs → hash php = e
  | inl m =>
    m ≠ ∅ ∧ (∃ php, Some php ∈ outputs ∧ hash php ≠ e) ∧
    ∀ h, m !! h = match answeredWith e h outputs with [] => None | l => Some l end
  end.
Proof.
  unfold fetchLayerHashes.
  destruct (hash_loop_spec e outputs ∅ false) as (m & has & -> & Hl & Hn & Hh).
  destruct has; simpl.
  - destruct (proj1 Hh eq_refl) as [?|(php & Hin & Hne)]; [done|].
    assert (m ≠ ∅) as Hm.
    { intros ->. pose proof (Hn (hash php)) as Hn'. rewrite lookup_empty in Hn'.
      destruct (proj1 Hn' eq_refl) as [_ Hnil]. by eapply answeredWith_nonempty. }
    rewrite decide_False by (by rewrite map_size_empty_iff).
    split; [done|]. split; [eauto|].
    intros h. specialize (Hl h). specialize (Hn h). rewrite lookup_empty in Hl, Hn.
    simpl in Hl. destruct (answeredWith e h outputs) as [|p l] eqn:Ha.
    + by apply Hn.
    + destruct (m !! h) as [l'|] eqn:Hm'; simpl in Hl; [by rewrite Hl|].
      by destruct (proj1 Hn eq_refl).
  - split; [done|]. intros php Hin.
    destruct (decide (hash php = e)) as [|Hne]; [done|].
    assert (false = true) as Hf by (apply Hh; right; eauto). done.
Qed.

(** X12.  [fetchLayerHashes] groups the peers by the hash they answered:
    its map sends every hash but the empty-layer hash to the peers that
    answered with it, in the order of their answers, and has no entry for a
    hash nobody answered with.  The only error is [errNoBlocksInLayer],
    returned exactly when no answer differs from the empty-layer hash; the
    error [could not get layer hashes from any peer] is never returned. *)
Theorem fetchLayerHashes_groups_peers_by_hash (e : N)
    (outputs : list (option peerHashPair)) :
  match fetchLayerHashes e outputs with
  | inr err => err = errNoBlocksInLayer ∧ ∀ php, Some php ∈ outputs → hash php = e
  | inl m =>
    m ≠ ∅ ∧ (∃ php, Some php ∈ outputs ∧ hash php ≠ e) ∧
    ∀ h, m !! h = match answeredWith e h outputs with [] => None | l => Some l end
  end.
Proof. apply fetchLayerHashes_spec. Qed.

(** X13.  [fetchEpochAtxHashes] is [fetchLayerHashes] under another name:
    the two copies of the loop give the same result on every input, the
    message in which they differ being out of reach. *)
Theorem fetchEpochAtxHashes_is_fetchLayerHashes (e : N)
    (outputs : list (option peerHashPair)) :
  fetchEpochAtxHashes e outputs = fetchLayerHashes e outputs.
Proof.
  pose proof (fetchLayerHashes_spec e outputs) as Hspec.
  unfold fetchEpochAtxHashes, fetchLayerHashes in *.
  destruct (foldl _ _ outputs) as [m has].
  destruct has; simpl in *; [|done].
  destruct (decide (size m = 0)); [by destruct Hspec | done].
Qed.

End hash_facts.

(** ** Ids by hash *)

Section id_facts.
Import syncer scenarios.

Lemma addIds_NoDup (v : list N) (st : fetched) :
  consistent st → NoDup (fetchedIds st) → NoDup (fetchedIds (addIds v st)).
Proof.
  revert st. induction v as [|bid v IH]; intros st Hc Hnd; [done|].
  unfold addIds. simpl. fold (addIds v).
  case_decide as Hin; [by apply IH|].
  apply IH.
  - intros x. simpl.
    rewrite elem_of_union, elem_of_singleton, elem_of_app, list_elem_of_singleton.
    by rewrite (Hc x).
  - simpl. apply NoDup_app. split; [done|]. split; [|apply NoDup_singleton].
    intros x Hx ->%list_elem_of_singleton. apply Hin. by apply Hc.
Qed.

(** An id some peer of [peers] sent in its answer. *)
Lemma askPeers_inv (calc : list N → N) (ask : N → peerAnswer) (h : N)
    (peers : list N) (st st' : fetched) :
  askPeers calc ask h peers st = inl st' →
  consistent st → NoDup (fetchedIds st) →
  consistent st' ∧ NoDup (fetchedIds st') ∧
  ∀ x, x ∈ fetchedIds st' →
    x ∈ fetchedIds st ∨ ∃ p v, p ∈ peers ∧ ask p = Answered (Some v) ∧ x ∈ v.
Proof.
  revert st. induction peers as [|p peers IH]; intros st Hrun Hc Hnd; simpl in Hrun.
  - injection Hrun as <-. split; [done|]. split; [done|]. by left.
  - destruct (ask p) as [e| | |[v|]] eqn:Hask; try done.
    + destruct (IH st Hrun Hc Hnd) as (Hc' & Hnd' & Hx). split; [done|]. split; [done|].
      intros x Hin. destruct (Hx x Hin) as [?|(p' & v & Hp & Ha & Hv)]; [by left|].
      right. exists p', v. split; [by right | done].
    + injection Hrun as <-.
      set (st1 := if decide (h ≠ calc v) then _ else st).
      assert (consistent st1 ∧ fetchedIds st1 = fetchedIds st) as [Hc1 Hf1]
        by (subst st1; by case_decide).
      destruct (addIds_spec v st1 Hc1) as (Hc' & _ & Hx).
      split; [done|]. split; [apply addIds_NoDup; [done | by rewrite Hf1]|].
      intros x Hin. apply Hx in Hin as [Hin|Hin]; [left; by rewrite <- Hf1|].
      right. exists p, v. split; [by left | done].
    + destruct (IH st Hrun Hc Hnd) as (Hc' & Hnd' & Hx). split; [done|]. split; [done|].
      intros x Hin. destruct (Hx x Hin) as [?|(p' & v & Hp & Ha & Hv)]; [by left|].
      right. exists p', v. split; [by right | done].
Qed.

Lemma forEachHash_inv (calc : list N → N) (ask : N → peerAnswer)
    (m : list (N * list N)) (st st' : fetched) :
  forEachHash calc ask m st = inl st' →
  consistent st → NoDup (fetchedIds st) →
  consistent st' ∧ NoDup (fetchedIds st') ∧
  ∀ x, x ∈ fetchedIds st' →
    x ∈ fetchedIds st ∨
    ∃ h peers p v, (h, peers) ∈ m ∧ p ∈ peers ∧ ask p = Answered (Some v) ∧ x ∈ v.
Proof.
  revert st. induction m as [|[h peers] m IH]; intros st Hrun Hc Hnd; simpl in Hrun.
  - injection Hrun as <-. split; [done|]. split; [done|]. by left.
  - destruct (askPeers calc ask h peers st) as [st1|e] eqn:Hask; [|done].
    destruct (askPeers_inv _ _ _ _ _ _ Hask Hc Hnd) as (Hc1 & Hnd1 & Hx1).
    destruct (IH st1 Hrun Hc1 Hnd1) as (Hc' & Hnd' & Hx').
    split; [done|]. split; [done|].
    intros x Hin. destruct (Hx' x Hin) as [Hin1|(h' & ps & p & v & Hm & Hp & Ha & Hv)].
    + destruct (Hx1 x Hin1) as [?|(p & v & Hp & Ha & Hv)]; [by left|].
      right. exists h, peers, p, v. split; [by left | done].
    + right. exists h', ps, p, v. split; [by right | done].
Qed.

(** X14.  The ids [fetchLayerBlockIds] and [fetchEpochAtxs] return are
    pairwise distinct, and each of them was sent by a peer that was listed
    for one of the hashes. *)
Theorem fetched_ids_are_distinct_and_were_sent (calc : list N → N) (ask : N → peerAnswer)
    (m : list (N * list N)) (got : fetched) :
  fetchLayerBlockIds calc ask m = inl got →
  fetchEpochAtxs calc ask m = inl got ∧
  NoDup (fetchedIds got) ∧
  (∀ x, x ∈ idSet got ↔ x ∈ fetchedIds got) ∧
  ∀ x, x ∈ fetchedIds got →
    ∃ h peers p v, (h, peers) ∈ m ∧ p ∈ peers ∧ ask p = Answered (Some v) ∧ x ∈ v.
Proof.
  intros Hrun. split; [exact Hrun|].
  unfold fetchLayerBlockIds, fetchIds in Hrun.
  destruct (forEachHash_inv _ _ _ _ _ Hrun) as (Hc & Hnd & Hx).
  { intros x. simpl. set_solver. }
  { constructor. }
  split; [done|]. split; [exact Hc|].
  intros x Hin. destruct (Hx x Hin) as [Hnil|?]; [|done].
  by apply elem_of_nil in Hnil.
Qed.

Lemma fetched_ids_are_distinct_and_were_sent_witness :
  fetchLayerBlockIds sumHash twoPeers [(3%N, [1%N]); (10%N, [2%N])]
    = inl (mkFetched {[1%N; 2%N; 4%N; 6%N]} [1; 2; 4; 6]%N []) ∧
  NoDup [1; 2; 4; 6]%N.
Proof.
  assert (fetchLayerBlockIds sumHash twoPeers [(3%N, [1%N]); (10%N, [2%N])]
          = inl (mkFetched {[1%N; 2%N; 4%N; 6%N]} [1; 2; 4; 6]%N [])) as Hrun.
  { vm_compute. reflexivity. }
  split; [exact Hrun|].
  destruct (fetched_ids_are_distinct_and_were_sent sumHash twoPeers _ _ Hrun) as (_ & Hnd & _).
  exact Hnd.
Defined.

(** A peer that times out or answers nil. *)
Lemma askPeers_silent (calc : list N → N) (ask : N → peerAnswer) (h : N)
    (silent peers : list N) (st : fetched) :
  Forall (λ p, ask p = TimedOut ∨ ask p = Answered None) silent →
  askPeers calc ask h (silent ++ peers) st = askPeers calc ask h peers st.
Proof.
  induction 1 as [|p silent [Hp|Hp] _ IH]; [done| |]; simpl; by rewrite Hp.
Qed.

(** X15.  For one hash the peers are asked in turn: one that times out or
    answers nil is passed over, and the first that answers with ids ends
    the turn without an error, so that the peers after it are not asked. *)
Theorem first_answer_ends_the_hash (calc : list N → N) (ask : N → peerAnswer) (h : N)
    (silent : list N) (p : N) (rest : list N) (v : list N) (st : fetched) :
  Forall (λ p, ask p = TimedOut ∨ ask p = Answered None) silent →
  ask p = Answered (Some v) →
  askPeers calc ask h (silent ++ p :: rest) st = askPeers calc ask h [p] st ∧
  ∃ st', askPeers calc ask h (silent ++ p :: rest) st = inl st'.
Proof.
  intros Hsilent Hask. rewrite askPeers_silent by done.
  simpl. rewrite Hask. split; [done | eauto].
Qed.

Lemma first_answer_ends_the_hash_witness :
  ∃ st', askPeers sumHash (λ p, if decide (p = 7%N) then TimedOut else twoPeers p) 10%N
           ([7%N] ++ 2%N :: [1%N]) (mkFetched ∅ [] []) = inl st' ∧
         fetchedIds st' = [4; 6]%N.
Proof.
  set (ask := λ p : N, if decide (p = 7%N) then TimedOut else twoPeers p).
  assert (Forall (λ p, ask p = TimedOut ∨ ask p = Answered None) [7%N]) as Hs
    by (repeat constructor).
  assert (ask 2%N = Answered (Some [4; 6]%N)) as Ha by reflexivity.
  destruct (first_answer_ends_the_hash sumHash ask 10%N [7%N] 2%N [1%N] [4; 6]%N
              (mkFetched ∅ [] []) Hs Ha) as [Heq _].
  eexists. split; [rewrite Heq; vm_compute; reflexivity | reflexivity].
Defined.

(** X16.  When every peer listed times out or answers nil, the two fetchers
    return no id and no error: that no peer had the ids is logged only. *)
Theorem silent_peers_give_no_ids_and_no_error (calc : list N → N) (ask : N → peerAnswer)
    (m : list (N * list N)) :
  Forall (λ hp, Forall (λ p, ask p = TimedOut ∨ ask p = Answered None) hp.2) m →
  fetchLayerBlockIds calc ask m = inl (mkFetched ∅ [] []) ∧
  fetchEpochAtxs calc ask m = inl (mkFetched ∅ [] []).
Proof.
  intros Hm.
  assert (∀ st, forEachHash calc ask m st = inl st) as Hall.
  { induction Hm as [|[h peers] m Hp _ IH]; intros st; [done|]. simpl in *.
    rewrite <- (app_nil_r peers), askPeers_silent by done. simpl. apply IH. }
  split; apply Hall.
Qed.

Lemma silent_peers_give_no_ids_and_no_error_witness :
  fetchLayerBlockIds sumHash (λ _, TimedOut) [(10%N, [1; 2]%N)] = inl (mkFetched ∅ [] []).
Proof.
  apply (silent_peers_give_no_ids_and_no_error sumHash (λ _, TimedOut) [(10%N, [1; 2]%N)]).
  repeat constructor.
Defined.

End id_facts.

(** ** Layers, callers of the queue, acceptance of a block *)

Section layer_results.
Import syncer scenarios.

Lemma fetchEpochAtxHashes_empty (e : N) (outputs : list (option peerHashPair)) :
  (∀ php, Some php ∈ outputs → hash php = e) →
  fetchEpochAtxHashes e outputs = inr errNoBlocksInLayer.
Proof.
  intros Hall. pose proof (fetchLayerHashes_empty e outputs Hall) as Hl.
  unfold fetchEpochAtxHashes, fetchLayerHashes in *.
  destruct (foldl _ _ outputs) as [m has]. destruct has; simpl in *; [|done].
  by destruct (decide (size m = 0)).
Qed.

(** X17.  An epoch for which every answer to the hash request is the
    empty hash makes [syncEpochActivations] fail with [errNoBlocksInLayer],
    whatever the peers and the atx queue would do next: unlike for a layer,
    nothing turns this error into an empty result. *)
Theorem empty_epoch_is_an_error (e : N) (outputs : list (option peerHashPair))
    (calc : list N → N) (ask : N → peerAnswer) (handle : list N → option error) :
  (∀ php, Some php ∈ outputs → hash php = e) →
  syncEpochActivations e outputs calc ask handle = Some errNoBlocksInLayer.
Proof.
  intros Hall. unfold syncEpochActivations. by rewrite fetchEpochAtxHashes_empty.
Qed.

Lemma empty_epoch_is_an_error_witness :
  (∀ php, Some php ∈ hashOutputs emptyNeighbors 4%N → hash php = 0%N) ∧
  syncEpochActivations 0%N (hashOutputs emptyNeighbors 4%N) sumHash twoPeers (λ _, None)
    = Some errNoBlocksInLayer ∧
  getLayerFromNeighbors 0%N emptyNeighbors 4%N = (Some (NewLayer 4%N), None).
Proof.
  assert (∀ php, Some php ∈ hashOutputs emptyNeighbors 4%N → hash php = 0%N) as Hall.
  { intros php Hin. simpl in Hin.
    repeat (apply elem_of_cons in Hin as [Hin|Hin]; [by inversion Hin|]).
    by apply elem_of_nil in Hin. }
  split; [exact Hall|]. split; [|reflexivity].
  exact (empty_epoch_is_an_error 0%N _ sumHash twoPeers (λ _, None) Hall).
Defined.

Lemma getLayerFromNeighbors_spec (e : N) (env : neighbors) (L : N) :
  match getLayerFromNeighbors e env L with
  | (Some l, None) =>
    Index l = L ∧
    (Blocks l = [] ↔ fetchLayerHashes e (hashOutputs env L) = inr errNoBlocksInLayer)
  | (None, Some _) => True
  | _ => False
  end.
Proof.
  unfold getLayerFromNeighbors.
  case_decide; [done|].
  destruct (fetchLayerHashes e (hashOutputs env L)) as [m|err] eqn:Hh.
  - destruct (isClosed1 env); [done|].
    destruct (fetchLayerBlockIds _ _ _) as [got|err]; [|done].
    destruct (isClosed2 env); [done|].
    destruct (syncLayerResult env L (fetchedIds got)) as [blocksArr err].
    case_decide as Hlen; [done|].
    destruct (isErr err); [done|]. simpl. split; [done|].
    split; [|done]. intros ->. done.
  - case_decide as Herr; [|done]. subst err. simpl. done.
Qed.

(** X18.  [getLayerFromNeighbors] returns a layer or an error and never
    both or neither; the layer it returns has the index asked for, and it
    is without blocks exactly when the hash request ended in
    [errNoBlocksInLayer]. *)
Theorem getLayerFromNeighbors_layer_or_error (e : N) (env : neighbors) (L : N) :
  match getLayerFromNeighbors e env L with
  | (Some l, None) =>
    Index l = L ∧
    (Blocks l = [] ↔ fetchLayerHashes e (hashOutputs env L) = inr errNoBlocksInLayer)
  | (None, Some _) => True
  | _ => False
  end.
Proof. apply getLayerFromNeighbors_spec. Qed.

End layer_results.

Section callers.
Import validation_queue syncer.
Context {M : Type} `{!ValidationInfra M}.
Implicit Types q : blockQueue M.

(** X19.  When every block asked for is in the store and none of them is
    in the queue, no caller of [addDependencies] waits on its channel:
    [syncLayer] returns the blocks of the layer, [getBlocks] and [GetBlocks]
    return nil, [validateBlockView] and [fetchBlock] return true and
    [FetchBlock] nil, whatever arrives on the channel or on [s.exit]. *)
Theorem nothing_missing_nothing_awaited (blockIds : list N) q :
  Forall (λ id, inQueue q (AsHash32 id) = false ∧ is_Some (GetBlock id (mesh q))) blockIds →
  (∀ LayerBlocks l sel, (syncLayer LayerBlocks l blockIds sel q).2 = LayerBlocks l (mesh q)) ∧
  (∀ l sel, (getBlocks l blockIds sel q).2 = None ∧ (GetBlocks l blockIds sel q).2 = None) ∧
  (∀ blk received, combineBlockDiffs blk = blockIds →
     (validateBlockView blk received q).2 = true) ∧
  (∀ h id received, blockIds = [id] →
     (fetchBlock h id received q).2 = true ∧ (FetchBlock h id received q).2 = None).
Proof.
  intros Hall.
  assert (∀ j, ∃ q', addDependencies j blockIds foo q = (q', (false, None)) ∧
                     mesh q' = mesh q) as Hadd.
  { intros j. destruct (addDependencies_satisfied j blockIds foo q Hall)
      as (q' & Heq & Hm & _). exists q'. done. }
  split; [|split; [|split]].
  - intros LB l sel. unfold syncLayer.
    destruct (Hadd (JLayer l)) as (q' & -> & Hm). simpl. by rewrite Hm.
  - intros l sel. unfold GetBlocks, getBlocks.
    destruct (Hadd (JLayer l)) as (q' & -> & Hm). done.
  - intros blk received <-. unfold validateBlockView.
    destruct (Hadd (JBlock (ID blk))) as (q' & -> & Hm). done.
  - intros h id received ->. unfold FetchBlock, fetchBlock.
    destruct (Hadd (JHash h)) as (q' & -> & Hm). done.
Qed.

End callers.

Section callers_run.
Import validation_queue syncer scenarios.

Lemma nothing_missing_nothing_awaited_witness :
  Forall (λ id, inQueue stocked (AsHash32 id) = false ∧
                is_Some (GetBlock id (mesh stocked))) [1%N] ∧
  (getBlocks 9%N [1%N] ExitClosed stocked).2 = None ∧
  (fetchBlock 5%N 1%N false stocked).2 = true.
Proof.
  assert (Forall (λ id, inQueue stocked (AsHash32 id) = false ∧
                        is_Some (GetBlock id (mesh stocked))) [1%N]) as Hall.
  { repeat constructor; eexists; reflexivity. }
  split; [exact Hall|].
  destruct (nothing_missing_nothing_awaited [1%N] stocked Hall) as (_ & Hget & _ & Hfetch).
  split; [apply Hget | by apply Hfetch].
Defined.

End callers_run.

Section acceptance.
Import syncer.

(** X20.  [blockSyntacticValidation] returns no error exactly for a block
    whose ATX id is neither the empty nor the golden one; whose reference
    block, if it names one, is in the store or could be fetched; whose
    active set, if it has one, is non-empty and could be fetched together
    with the block's ATX, while a block without an active set names a
    reference block and its ATX could be fetched; whose miner is eligible;
    that repeats no transaction id and no id of its active set; whose
    transactions, if it has any, could be fetched; and whose view is
    valid. *)
Theorem blockSyntacticValidation_accepts golden empty elig getb fetchb hatx htx vview
    (b : Block) :
  blockSyntacticValidation golden empty elig getb fetchb hatx htx vview b = None ↔
  BlockATXID b ≠ empty ∧ BlockATXID b ≠ golden ∧
  (∀ ref, RefBlock b = Some ref → is_Some (getb ref) ∨ fetchb ref = true) ∧
  match ActiveSet b with
  | Some active => active ≠ [] ∧ hatx (BlockATXID b :: active) = None
  | None => is_Some (RefBlock b) ∧ hatx [BlockATXID b] = None
  end ∧
  elig b = (true, None) ∧
  NoDup (TxIDs b) ∧ (∀ atxs, ActiveSet b = Some atxs → NoDup atxs) ∧
  (TxIDs b = [] ∨ htx (TxIDs b) = None) ∧
  vview b = true.
Proof.
  unfold blockSyntacticValidation.
  assert (fetchRefBlock getb fetchb b = None ↔
          ∃ ref, RefBlock b = Some ref ∧ (is_Some (getb ref) ∨ fetchb ref = true)) as Href.
  { unfold fetchRefBlock. destruct (RefBlock b) as [ref|]; [|naive_solver].
    destruct (getb ref) as [x|] eqn:Hg.
    - split; [|done]. intros _. exists ref. split; [done|]. left. eauto.
    - destruct (fetchb ref) eqn:Hf; [naive_solver|].
      split; [done|]. intros (r & Hr & [[x Hx]|Hx]); congruence. }
  assert (fetchAllReferencedAtxs hatx b = None ↔
          match ActiveSet b with
          | Some active => active ≠ [] ∧ hatx (BlockATXID b :: active) = None
          | None => is_Some (RefBlock b) ∧ hatx [BlockATXID b] = None
          end) as Hatxs.
  { unfold fetchAllReferencedAtxs. destruct (ActiveSet b) as [active|].
    - case_decide as Hlen.
      + simpl. split; [|tauto]. intros Hh. split; [|done]. intros ->. simpl in Hlen. lia.
      + split; [done|]. intros [Hne _]. destruct active; [done|]. simpl in Hlen. lia.
    - destruct (RefBlock b); [|split; [done | by intros [[? ?] _]]].
      split; [|tauto]. intros Hh. split; [eauto | done]. }
  assert (fetchBlockDataForValidation getb fetchb hatx b = None ↔
          (∀ ref, RefBlock b = Some ref → is_Some (getb ref) ∨ fetchb ref = true) ∧
          fetchAllReferencedAtxs hatx b = None) as Hdata.
  { unfold fetchBlockDataForValidation. destruct (RefBlock b) as [ref|] eqn:Hr.
    - destruct (fetchRefBlock getb fetchb b) as [err|] eqn:Hf.
      + split; [done|]. intros [Hall _].
        assert (Some err = None) as Hn; [|done].
        apply Href. exists ref. split; [done | by apply Hall].
      + split; [|tauto]. intros Ha. split; [|done].
        intros ref' [= <-]. destruct (proj1 Href eq_refl) as (r & [= <-] & Hok). done.
    - split; [|tauto]. intros Ha. split; [done | done]. }
  assert (fastValidation elig b = None ↔
          elig b = (true, None) ∧ NoDup (TxIDs b) ∧
          (∀ atxs, ActiveSet b = Some atxs → NoDup atxs)) as Hfast.
  { unfold fastValidation. destruct (elig b) as [el err].
    destruct err as [err|]; simpl; [split; [done | by intros [[= ] _]]|].
    destruct el; simpl; [|split; [done | by intros [[= ] _]]].
    split.
    - intros Hu. split; [done|].
      destruct (decide (NoDup (TxIDs b))) as [Htx|Htx]; last first.
      { pose proof (validateUniqueTxAtx_dup b (or_introl Htx)) as He.
        by rewrite Hu in He. }
      split; [done|]. intros atxs Ha.
      destruct (decide (NoDup atxs)) as [Hn|Hn]; [done|].
      pose proof (validateUniqueTxAtx_dup b (or_intror (ex_intro _ atxs (conj Ha Hn)))) as He.
      by rewrite Hu in He.
    - intros (_ & Htx & Hatx). by apply validateUniqueTxAtx_nodup. }
  assert (dataAvailability htx b = None ↔ TxIDs b = [] ∨ htx (TxIDs b) = None) as Hav.
  { unfold dataAvailability. case_decide as Hlen.
    - destruct (htx (TxIDs b)); split; try done.
      + intros [Hnil|?]; [|done]. rewrite Hnil in Hlen. simpl in Hlen. lia.
      + by right.
    - split; [|done]. intros _. left. destruct (TxIDs b); [done|]. simpl in Hlen. lia. }
  case_decide as Hatx.
  { split; [done|]. intros (? & ? & _). tauto. }
  destruct (fetchBlockDataForValidation getb fetchb hatx b) as [err|] eqn:Hd.
  { split; [done|]. intros (_ & _ & Hr & Ha & _).
    assert (Some err = None) as Hn; [|done]. apply Hdata. split; [done | by apply Hatxs]. }
  destruct (proj1 Hdata eq_refl) as [Hr Ha]. apply Hatxs in Ha.
  destruct (fastValidation elig b) as [err|] eqn:Hf.
  { split; [done|]. intros (_ & _ & _ & _ & He & Htx & Hact & _).
    assert (Some err = None) as Hn; [|done]. by apply Hfast. }
  destruct (proj1 Hfast eq_refl) as (He & Htx & Hact).
  destruct (dataAvailability htx b) as [err|] eqn:Hda.
  { split; [done|]. intros (_ & _ & _ & _ & _ & _ & _ & Hav' & _).
    assert (Some err = None) as Hn; [|done]. by apply Hav. }
  pose proof (proj1 Hav eq_refl) as Hav'.
  destruct (vview b); [|split; [done | by intros (_ & _ & _ & _ & _ & _ & _ & _ & ?)]].
  split; [|done]. intros _. tauto.
Qed.

End acceptance.

(** ** Activations and local lookups *)

Section atx_facts.
Import syncer.
Context {St : Type}.

(** X21.  [fetchAtx] returns an activation or an error and never both or
    neither: when the queue reports no error and hands back no activation,
    the result is the error [ATX not fetched]; otherwise it is the error of
    the queue, or the first activation handed back.  [FetchAtx] fails in the
    same cases. *)
Theorem fetchAtx_activation_or_error
    (HandleAtxs : list N → St → St * (list ActivationTx * option error))
    (ID : N) (st : St) :
  (fetchAtx HandleAtxs ID st).1 = (HandleAtxs [ID] st).1 ∧
  (FetchAtx HandleAtxs ID st).1 = (HandleAtxs [ID] st).1 ∧
  (FetchAtx HandleAtxs ID st).2 = (fetchAtx HandleAtxs ID st).2.2 ∧
  match (fetchAtx HandleAtxs ID st).2 with
  | (Some atx, None) =>
    (HandleAtxs [ID] st).2.2 = None ∧ head (HandleAtxs [ID] st).2.1 = Some atx
  | (None, Some e) =>
    (HandleAtxs [ID] st).2.2 = Some e ∨
    (HandleAtxs [ID] st).2 = ([], None) ∧ e = errorf "ATX not fetched"
  | _ => False
  end.
Proof.
  unfold FetchAtx, fetchAtx.
  destruct (HandleAtxs [ID] st) as [st1 [atxs [e|]]]; simpl; [by repeat split; auto|].
  destruct atxs as [|atx atxs]; simpl; repeat split; auto.
Qed.

(** X22.  [FetchAtxReferences] asks for nothing when the positioning ATX is
    the golden one and there is no previous ATX; and when the positioning
    ATX cannot be fetched, the previous one is not asked for. *)
Theorem FetchAtxReferences_asks_only_for_what_is_named (golden empty : N)
    (HandleAtxs : list N → St → St * (list ActivationTx * option error))
    (atx : ActivationTx) (st : St) :
  (PositioningATX atx = golden → PrevATXID atx = empty →
   FetchAtxReferences golden empty HandleAtxs atx st = (st, None)) ∧
  (PositioningATX atx ≠ golden →
   ∀ e, (FetchAtx HandleAtxs (PositioningATX atx) st).2 = Some e →
   FetchAtxReferences golden empty HandleAtxs atx st
   = FetchAtx HandleAtxs (PositioningATX atx) st).
Proof.
  unfold FetchAtxReferences, FetchAtx. split.
  - intros Hp Hv. rewrite decide_False by (by intros ?).
    by rewrite decide_False by (by intros ?).
  - intros Hp e. rewrite decide_True by done.
    destruct (fetchAtx HandleAtxs (PositioningATX atx) st) as [st1 [a err]].
    simpl. by intros ->.
Qed.

End atx_facts.

Section atx_runs.
Import syncer.

(** A queue that hands back nothing and counts how often it was asked. *)
Lemma FetchAtxReferences_asks_only_for_what_is_named_witness :
  FetchAtxReferences 99%N 0%N (λ _ (asked : nat), (S asked, ([], None))) (mkAtx 5 99 0) 0
    = (0, None) ∧
  FetchAtxReferences 99%N 0%N (λ _ (asked : nat), (S asked, ([], None))) (mkAtx 5 7 8) 0
    = (1, Some (errorf "ATX not fetched")).
Proof.
  set (handle := λ (_ : list N) (asked : nat),
                   (S asked, ([] : list ActivationTx, None : option error))).
  destruct (FetchAtxReferences_asks_only_for_what_is_named 99%N 0%N handle
              (mkAtx 5 99 0) 0) as [Hnone _].
  destruct (FetchAtxReferences_asks_only_for_what_is_named 99%N 0%N handle
              (mkAtx 5 7 8) 0) as [_ Hfirst].
  split; [exact (Hnone eq_refl eq_refl)|].
  exact (Hfirst ltac:(discriminate) (errorf "ATX not fetched") eq_refl).
Defined.

End atx_runs.

Section local_facts.
Import syncer.
Context {A : Type}.

(** The pool loop: the hits by id, and the misses in the order they came. *)
Lemma lookInPool_spec (get : N → option A) (ids : list N)
    (u0 : gmap N A) (mis0 : list N) :
  ∃ u mis,
    foldl (λ '(unprocessedItems, missingInPool) t,
             match get t with
             | Some x => (<[t := x]> unprocessedItems, missingInPool)
             | None => (unprocessedItems, missingInPool ++ [t])
             end) (u0, mis0) ids = (u, mis) ∧
    mis = mis0 ++ filter (λ t, get t = None) ids ∧
    ∀ t, u !! t = if decide (t ∈ ids) then
                    match get t with Some x => Some x | None => u0 !! t end
                  else u0 !! t.
Proof.
  revert u0 mis0. induction ids as [|t ids IH]; intros u0 mis0; cbn [foldl].
  - exists u0, mis0. split; [done|]. split; [by rewrite app_nil_r|].
    intros t. rewrite decide_False; [done|]. apply not_elem_of_nil.
  - destruct (get t) as [x|] eqn:Hg.
    + destruct (IH (<[t := x]> u0) mis0) as (u & mis & -> & -> & Hu).
      exists u, (mis0 ++ filter (λ t, get t = None) ids). split; [done|]. split.
      * rewrite filter_cons_False; [done|]. by rewrite Hg.
      * intros t'. rewrite Hu. destruct (decide (t' = t)) as [->|Hne].
        -- rewrite Hg, lookup_insert_eq.
           rewrite (decide_True (P := t ∈ t :: ids)) by (by left).
           by destruct (decide (t ∈ ids)).
        -- rewrite lookup_insert_ne by done.
           destruct (decide (t' ∈ ids)) as [Hin|Hin].
           ++ by rewrite decide_True by (by right).
           ++ rewrite decide_False; [done|]. intros [?|?]%elem_of_cons; done.
    + destruct (IH u0 (mis0 ++ [t])) as (u & mis & -> & -> & Hu).
      exists u, ((mis0 ++ [t]) ++ filter (λ t, get t = None) ids).
      split; [done|]. split.
      * rewrite filter_cons_True by done. by rewrite <- app_assoc.
      * intros t'. rewrite Hu. destruct (decide (t' = t)) as [->|Hne].
        -- rewrite Hg. rewrite (decide_True (P := t ∈ t :: ids)) by (by left).
           by destruct (decide (t ∈ ids)).
        -- destruct (decide (t' ∈ ids)) as [Hin|Hin].
           ++ by rewrite decide_True by (by right).
           ++ rewrite decide_False; [done|]. intros [?|?]%elem_of_cons; done.
Qed.

Lemma lookInPool_result (get : N → option A) (ids : list N) :
  (lookInPool get ids).2 = filter (λ t, get t = None) ids ∧
  ∀ t, (lookInPool get ids).1 !! t = if decide (t ∈ ids) then get t else None.
Proof.
  unfold lookInPool.
  destruct (lookInPool_spec get ids ∅ []) as (u & mis & -> & -> & Hu). simpl.
  split; [done|]. intros t. rewrite Hu, lookup_empty.
  destruct (decide (t ∈ ids)); [|done]. by destruct (get t).
Qed.

End local_facts.

Section local_results.
Import syncer.
Context {Tx Atx : Type}.

(** X23.  [blockCheckLocal] reports nothing as unprocessed and nothing as
    missing; what it reports as found in the database are exactly the ids
    asked for whose block [GetBlock] returns, each with that block. *)
Theorem blockCheckLocal_finds_what_the_store_has (getb : N → option Block)
    (ToHash20 : N → N) (blockIds : list N) :
  (blockCheckLocal getb ToHash20 blockIds).1.1 = ∅ ∧
  (blockCheckLocal getb ToHash20 blockIds).2 = [] ∧
  ∀ id, (blockCheckLocal getb ToHash20 blockIds).1.2 !! id
        = if decide (id ∈ blockIds) then getb (ToHash20 id) else None.
Proof.
  unfold blockCheckLocal. simpl. split; [done|]. split; [done|].
  assert (∀ (d0 : gmap N Block) id,
    foldl (λ dbItems id0, match getb (ToHash20 id0) with
                          | None => dbItems
                          | Some res => <[id0 := res]> dbItems
                          end) d0 blockIds !! id
    = if decide (id ∈ blockIds)
      then match getb (ToHash20 id) with Some x => Some x | None => d0 !! id end
      else d0 !! id) as Hfold.
  { induction blockIds as [|a l IH]; intros d0 id; cbn [foldl].
    - rewrite decide_False; [done|]. apply not_elem_of_nil.
    - rewrite IH. destruct (decide (id = a)) as [->|Hne].
      + rewrite (decide_True (P := a ∈ a :: l)) by (by left).
        destruct (getb (ToHash20 a)) as [x|] eqn:Hg.
        * rewrite lookup_insert_eq. by destruct (decide (a ∈ l)).
        * by destruct (decide (a ∈ l)).
      + assert (match getb (ToHash20 a) with
                | Some res => <[a:=res]> d0
                | None => d0
                end !! id = d0 !! id) as ->.
        { destruct (getb (ToHash20 a)); [by rewrite lookup_insert_ne|done]. }
        destruct (decide (id ∈ l)) as [Hin|Hin].
        * by rewrite decide_True by (by right).
        * rewrite decide_False; [done|]. intros [?|?]%elem_of_cons; done. }
  intros id. rewrite Hfold, lookup_empty.
  destruct (decide (id ∈ blockIds)); [|done]. by destruct (getb (ToHash20 id)).
Qed.

(** X24.  [txCheckLocal] and [atxCheckLocal] look in the pool first: an id
    asked for is reported as unprocessed exactly when the pool has it, with
    the item of the pool, and the database is asked for the ids the pool
    lacks, in the order they were given, and for no other; what it reports
    missing is what the check reports missing. *)
Theorem check_local_asks_the_pool_first
    (txpoolGet : N → option Tx) (GetTransactions : list N → list Tx * list N)
    (TxHash32 : Tx → N)
    (GetFullAtx : N → option Atx) (GetATXs : list N → list (N * Atx) * list N)
    (ids : list N) :
  (∀ t, (txCheckLocal txpoolGet GetTransactions TxHash32 ids).1.1 !! t
        = if decide (t ∈ ids) then txpoolGet t else None) ∧
  (txCheckLocal txpoolGet GetTransactions TxHash32 ids).2
  = (GetTransactions (filter (λ t, txpoolGet t = None) ids)).2 ∧
  (∀ t, (atxCheckLocal GetFullAtx GetATXs ids).1.1 !! t
        = if decide (t ∈ ids) then GetFullAtx t else None) ∧
  (atxCheckLocal GetFullAtx GetATXs ids).2
  = (GetATXs (filter (λ t, GetFullAtx t = None) ids)).2.
Proof.
  unfold txCheckLocal, atxCheckLocal.
  destruct (lookInPool_result txpoolGet ids) as [Hm Hu].
  destruct (lookInPool_result GetFullAtx ids) as [Hm' Hu'].
  destruct (lookInPool txpoolGet ids) as [u mis].
  destruct (lookInPool GetFullAtx ids) as [u' mis']. simpl in *. subst mis mis'.
  destruct (GetTransactions _) as [dbTxs missing].
  destruct (GetATXs _) as [dbAtxs missing']. simpl. done.
Qed.

End local_results.

(** ** The controller *)

Section controller_facts.
Import syncer controller.
Context {W : Type} `{!Surroundings W}.
Implicit Types n : node W.

Lemma waitLayer_frame n : sameStatus n (waitLayer n).1.
Proof.
  unfold waitLayer. destruct (waitTick (world n)) as [w [l|]]; by split.
Qed.

Lemma getAndValidateLayer_frame id n :
  sameStatus n (getAndValidateLayer id n).1 ∧
  validatingLayer (getAndValidateLayer id n).1 = validatingLayerNone.
Proof.
  unfold getAndValidateLayer. simpl.
  destruct (GetLayer id (world n)) as [lyr|err]; by repeat split.
Qed.

Lemma validateOrZero_frame l n :
  sameStatus n (validateOrZero l n).1 ∧
  validatingLayer (validateOrZero l n).1 = validatingLayerNone.
Proof.
  unfold validateOrZero.
  pose proof (getAndValidateLayer_frame l n) as Hf.
  destruct (getAndValidateLayer l n) as [n1 [e|]]; [|done].
  case_decide; [done|].
  destruct (SetZeroBlockLayer l (world n1)) as [w e2]. simpl in *. done.
Qed.

Lemma syncSingleLayer_returns l n :
  ∃ n' r, syncSingleLayer l n = Returns (n', r) ∧ sameStatus n n' ∧
          validatingLayer n' = validatingLayer n.
Proof.
  unfold syncSingleLayer.
  destruct (isClosed (world n)); [by eexists _, _|].
  pose proof (getLayerFromNeighbors_spec emptyLayer (peersFor l (world n)) l) as Hone.
  destruct (getLayerFromNeighbors _ _ _) as [[lyr|] [e|]]; try done.
  - case_decide.
    + destruct (SetZeroBlockLayer _ _) as [w [e|]]; by eexists _, _.
    + by eexists _, _.
  - by eexists _, _.
Qed.


Lemma setStatus_step (st : Z) n :
  awaitInv (gossip n) →
  ∃ n', setStatus st n = Some n' ∧ awaitInv (gossip n') ∧
        gossipSynced (gossip n') = st ∧ subscriptions n' = subscriptions n ∧
        validatingLayer n' = validatingLayer n ∧ world n' = world n.
Proof.
  intros Hinv. unfold setStatus.
  destruct (setGossip_step st (gossip n) Hinv) as (s' & -> & Hinv' & Hst & _).
  simpl. eexists. split; [done|]. done.
Qed.

(** X25.  [getAndValidateLayer] leaves no layer marked as under validation,
    on whichever way it returns; it returns the error of [GetLayer] as it
    is and then has validated nothing, and without such an error it has
    validated the layer it got, with a nil input vector when the database
    has none. *)
Theorem getAndValidateLayer_leaves_no_layer_under_validation (id : N) n :
  getValidatingLayer (getAndValidateLayer id n).1 = validatingLayerNone ∧
  sameStatus n (getAndValidateLayer id n).1 ∧
  match GetLayer id (world n) with
  | inr err =>
    (getAndValidateLayer id n).2 = Some err ∧ world (getAndValidateLayer id n).1 = world n
  | inl lyr =>
    (getAndValidateLayer id n).2 = None ∧
    world (getAndValidateLayer id n).1
    = ValidateLayer lyr
        (match GetLayerInputVector id (world n) with inl v => Some v | inr _ => None end)
        (world n)
  end.
Proof.
  destruct (getAndValidateLayer_frame id n) as [Hs Hv].
  split; [exact Hv|]. split; [exact Hs|].
  unfold getAndValidateLayer. simpl.
  destruct (GetLayer id (world n)) as [lyr|err]; done.
Qed.

(** X26.  [syncSingleLayer] does not panic: the layer it reads the blocks
    of is never nil, since [getLayerFromNeighbors] returns a layer whenever
    it returns no error.  It touches neither the gossip status nor the
    layer under validation, and on a closed syncer it returns the error
    [shutdown] and has done nothing. *)
Theorem syncSingleLayer_never_panics (l : N) n :
  ∃ n' r, syncSingleLayer l n = Returns (n', r) ∧ sameStatus n n' ∧
          validatingLayer n' = validatingLayer n ∧
          if isClosed (world n) then n' = n ∧ r = Some (errorf "shutdown") else True.
Proof.
  destruct (syncSingleLayer_returns l n) as (n' & r & Hrun & Hs & Hv).
  exists n', r. split; [done|]. split; [done|]. split; [done|].
  destruct (isClosed (world n)) eqn:Hc; [|done].
  unfold syncSingleLayer in Hrun. rewrite Hc in Hrun.
  by injection Hrun as <- <-.
Qed.

(** X27.  A layer for which every peer answers the empty-layer hash is
    recorded as a zero-block layer: on an open syncer with peers,
    [syncSingleLayer] calls [SetZeroBlockLayer] for it and returns its
    error, and goes on to the activations only when there is none. *)
Theorem empty_layer_is_set_as_zero_block_layer (l : N) n :
  isClosed (world n) = false →
  GetPeers (peersFor l (world n)) ≠ [] →
  (∀ php, Some php ∈ hashOutputs (peersFor l (world n)) l → hash php = emptyLayer) →
  syncSingleLayer l n
  = Returns
      (let '(w, e) := SetZeroBlockLayer l (fetchedFrom l (world n)) in
       (setWorld (match e with Some _ => w | None => syncAtxs l w end) n, e)).
Proof.
  intros Hc Hp Hall. unfold syncSingleLayer. rewrite Hc.
  unfold getLayerFromNeighbors.
  rewrite decide_False by (destruct (GetPeers _); [done | simpl; lia]).
  rewrite fetchLayerHashes_empty by done.
  rewrite decide_True by done. simpl.
  by destruct (SetZeroBlockLayer l (fetchedFrom l (world n))) as [w [e|]].
Qed.

(** X28.  [gossipSyncForOneFullLayer] does not panic on a syncer whose await
    channel is closed exactly when it is [done].  When it returns nil the
    gossip status is [done], the await channel is closed and the ticker
    subscription has been cancelled.  When it returns an error the status
    is as it was or [inProgress2], never newly [done], and the subscription
    is left behind. *)
Theorem gossipSyncForOneFullLayer_opens_gossip_on_success_only (l : N) n :
  awaitInv (gossip n) →
  ∃ n' r, gossipSyncForOneFullLayer l n = Returns (n', r) ∧ awaitInv (gossip n') ∧
    match r with
    | None =>
      gossipSynced (gossip n') = done ∧ Await (gossip n') ∈ closedChans (gossip n') ∧
      subscriptions n' = subscriptions n
    | Some _ =>
      (gossip n' = gossip n ∨ gossipSynced (gossip n') = inProgress2) ∧
      subscriptions n' = S (subscriptions n)
    end.
Proof.
  intros Hinv. unfold gossipSyncForOneFullLayer.
  pose proof (waitLayer_frame (subscribe n)) as [Hg1 Hs1].
  destruct (waitLayer (subscribe n)) as [n1 [flayer exit]]. simpl in Hg1, Hs1.
  destruct exit.
  { eexists _, _. split; [done|]. rewrite Hg1, Hs1. split; [done|]. split; [by left | done]. }
  destruct (syncSingleLayer_returns l n1) as (n2 & r2 & -> & [Hg2 Hs2] & _).
  destruct r2 as [e|].
  { eexists _, _. split; [done|]. rewrite Hg2, Hs2, Hg1, Hs1.
    split; [done|]. split; [by left | done]. }
  pose proof (validateOrZero_frame l n2) as [[Hg3 Hs3] _].
  destruct (validateOrZero l n2) as [n3 [e|]]; simpl in Hg3, Hs3.
  { eexists _, _. split; [done|]. rewrite Hg3, Hs3, Hg2, Hs2, Hg1, Hs1.
    split; [done|]. split; [by left | done]. }
  destruct (setStatus_step inProgress2 n3) as (n4 & -> & Hinv4 & Hst4 & Hs4 & _).
  { by rewrite Hg3, Hg2, Hg1. }
  pose proof (waitLayer_frame n4) as [Hg5 Hs5].
  destruct (waitLayer n4) as [n5 [l5 exit2]]. simpl in Hg5, Hs5.
  assert (subscriptions n5 = S (subscriptions n)) as Hsub5
    by (by rewrite Hs5, Hs4, Hs3, Hs2, Hs1).
  destruct exit2.
  { eexists _, _. split; [done|]. rewrite Hg5. split; [done|]. split; [by right | done]. }
  destruct (syncSingleLayer_returns flayer n5) as (n6 & r6 & -> & [Hg6 Hs6] & _).
  destruct r6 as [e|].
  { eexists _, _. split; [done|]. rewrite Hg6, Hs6, Hg5.
    split; [done|]. split; [by right | done]. }
  pose proof (validateOrZero_frame flayer n6) as [[Hg7 Hs7] _].
  destruct (validateOrZero flayer n6) as [n7 [e|]]; simpl in Hg7, Hs7.
  { eexists _, _. split; [done|]. rewrite Hg7, Hs7, Hg6, Hs6, Hg5.
    split; [done|]. split; [by right | done]. }
  destruct (setStatus_step done (unsubscribe n7)) as (n8 & -> & Hinv8 & Hst8 & Hs8 & _).
  { simpl. by rewrite Hg7, Hg6, Hg5. }
  eexists _, _. split; [done|]. split; [done|]. split; [done|].
  split; [by apply Hinv8|]. rewrite Hs8. simpl. rewrite Hs7, Hs6, Hsub5. done.
Qed.

(** X29.  [handleCurrentLayer] panics exactly when the latest layer is the
    current one, the validation delta has passed, and reading that layer
    fails with an error other than [ErrNotFound].  When it returns, the
    gossip status is untouched. *)
Theorem handleCurrentLayer_panics_on_a_broken_layer_only n :
  (handleCurrentLayer n = Panic ↔
   LatestLayer (world n) = GetCurrentLayer (world n) ∧
   validationDeltaPassed (world n) = true ∧
   ∃ e, GetLayer (LatestLayer (world n)) (world n) = inr e ∧ e ≠ ErrNotFound) ∧
  match handleCurrentLayer n with
  | Returns (n', _) => sameStatus n n'
  | Panic => True
  end.
Proof.
  cut ((handleCurrentLayer n = Panic ↔
        LatestLayer (world n) = GetCurrentLayer (world n) ∧
        validationDeltaPassed (world n) = true ∧
        ∃ e, GetLayer (LatestLayer (world n)) (world n) = inr e ∧ e ≠ ErrNotFound) ∧
       (∀ n' r, handleCurrentLayer n = Returns (n', r) → sameStatus n n')).
  { intros [Hp Hr]. split; [exact Hp|].
    destruct (handleCurrentLayer n) as [|[n' r]]; [done|]. by eapply Hr. }
  unfold handleCurrentLayer.
  destruct (bool_decide (LatestLayer (world n) = GetCurrentLayer (world n))) eqn:Hl;
    [apply bool_decide_eq_true in Hl | apply bool_decide_eq_false in Hl]; simpl.
  2:{ split; [split; [|by intros [? _]]|].
      - repeat case_match; done.
      - intros n' r Hr. repeat case_match; simplify_eq; by split. }
  destruct (validationDeltaPassed (world n)) eqn:Hv; simpl.
  2:{ split; [split; [|by intros (_ & ? & _)]|].
      - repeat case_match; done.
      - intros n' r Hr. repeat case_match; simplify_eq; by split. }
  pose proof (getAndValidateLayer_frame (LatestLayer (world n)) n) as [Hs _].
  assert ((getAndValidateLayer (LatestLayer (world n)) n).2
          = match GetLayer (LatestLayer (world n)) (world n) with
            | inr err => Some err | inl _ => None end) as Herr.
  { unfold getAndValidateLayer. simpl. by destruct (GetLayer _ _). }
  destruct (getAndValidateLayer (LatestLayer (world n)) n) as [n1 err]. simpl in Hs, Herr.
  destruct (GetLayer (LatestLayer (world n)) (world n)) as [lyr|e] eqn:Hget; subst err.
  - split; [split|].
    + repeat case_match; done.
    + intros (_ & _ & e & He & _). done.
    + intros n' r Hr. repeat case_match; simplify_eq; destruct Hs; by split.
  - destruct (decide (e ≠ ErrNotFound)) as [Hne|Heq].
    + split; [split; [|done]|done]. intros _. split; [done|]. split; [done|]. eauto.
    + destruct (SetZeroBlockLayer _ (world n1)) as [w e2]. split; [split|].
      * repeat case_match; done.
      * intros (_ & _ & e' & [= <-] & Hne). done.
      * intros n' r Hr. repeat case_match; simplify_eq; destruct Hs; by split.
Qed.

End controller_facts.

Section controller_runs.
Import syncer controller scenarios.

Lemma empty_layer_is_set_as_zero_block_layer_witness :
  isClosed (world freshNode) = false ∧
  syncSingleLayer 4%N freshNode
  = Returns (setWorld (mkWorld [8; 9]%N [4%N]) freshNode, None).
Proof.
  split; [reflexivity|].
  assert (∀ php, Some php ∈ hashOutputs (peersFor 4%N (world freshNode)) 4%N
                 → hash php = emptyLayer) as Hall.
  { intros php Hin. simpl in Hin.
    repeat (apply elem_of_cons in Hin as [Hin|Hin]; [by inversion Hin|]).
    by apply elem_of_nil in Hin. }
  exact (empty_layer_is_set_as_zero_block_layer 4%N freshNode eq_refl
           ltac:(discriminate) Hall).
Defined.

Lemma gossipSyncForOneFullLayer_opens_gossip_on_success_only_witness :
  awaitInv (gossip freshNode) ∧
  ∃ n', gossipSyncForOneFullLayer 7%N freshNode = Returns (n', None) ∧
        gossipSynced (gossip n') = done ∧ Await (gossip n') ∈ closedChans (gossip n') ∧
        subscriptions n' = 0.
Proof.
  split; [exact NewSync_inv|].
  destruct (gossipSyncForOneFullLayer_opens_gossip_on_success_only 7%N freshNode NewSync_inv)
    as (n' & r & Hrun & _ & Hr).
  assert (∃ n1, gossipSyncForOneFullLayer 7%N freshNode = Returns (n1, None)) as [n1 Hn1].
  { vm_compute. eauto. }
  rewrite Hn1 in Hrun. injection Hrun as <- <-.
  exists n1. split; [exact Hn1|]. exact Hr.
Defined.

(** The same run as a value: both layers end as zero-block layers and the
    ticks are used up. *)
Example gossipSyncForOneFullLayer_run :
  ∃ n', gossipSyncForOneFullLayer 7%N freshNode = Returns (n', None) ∧
        zeroLayers (world n') = [7; 8]%N ∧ ticks (world n') = [] ∧
        gossipSynced (gossip n') = done.
Proof. vm_compute. eexists. repeat split. Qed.

End controller_runs.
